(** * Verification of the declarative-source core of airbyte_cdk

    A shallow embedding of

    - [airbyte_cdk/utils/airbyte_secrets_utils.py]   (secret masking),
    - [airbyte_cdk/sources/types.py]                 (Record, StreamSlice),
    - [.../interpolation/interpolated_boolean.py]    (boolean interpolation),
    - [.../paginators/strategies/page_increment.py]  (counter pagination),
    - [.../paginators/strategies/cursor_pagination_strategy.py],

    together with the bounded test read of the connector builder, and the
    properties the specification states about them.

    Part I holds the model, Part II the lemmas and theorems. *)

From Stdlib Require Import ZArith Ascii String Floats.SpecFloat.
From Equations Require Import Equations.
From stdpp Require Import base list strings option sets.

Open Scope Z_scope.

(* ===================================================================== *)
(** * Part I: the model                                                   *)
(* ===================================================================== *)

(** ** Python values

    The values that flow through configs, records, slices and templates:
    JSON-like data plus the tuple and set literals that appear in
    [FALSE_VALUES].  A [dict] keeps insertion order, so it is an association
    list; its keys are strings, as in [Mapping[str, Any]]. *)

#[warnings="-register-all"]
Inductive Value : Type :=
| VNone
| VBool (b : bool)
| VInt (z : Z)
| VFloat (f : spec_float)
| VStr (s : string)
| VList (l : list Value)
| VTuple (l : list Value)
| VDict (d : list (string * Value))
| VSet (l : list Value).

Abbreviation Dict := (list (string * Value)).

(** [d.get(k)] *)
Fixpoint dict_get (k : string) (d : Dict) : option Value :=
  match d with
  | [] => None
  | (k', v) :: d' => if String.eqb k k' then Some v else dict_get k d'
  end.

Definition dict_keys (d : Dict) : list string := d.*1.

(** [k in d] *)
Definition dict_has (k : string) (d : Dict) : bool :=
  bool_decide (k ∈ dict_keys d).

(** [d[k] = v]: an existing key keeps its position, a new one is appended *)
Fixpoint dict_set (k : string) (v : Value) (d : Dict) : Dict :=
  match d with
  | [] => [(k, v)]
  | (k', v') :: d' =>
      if String.eqb k k' then (k', v) :: d' else (k', v') :: dict_set k v d'
  end.

(** [a | b] on dicts: the entries of [a], updated and extended by those of [b] *)
Definition dict_union (a b : Dict) : Dict :=
  fold_left (λ acc kv, dict_set kv.1 kv.2 acc) b a.

(** *** Equality, [==]

    Numbers compare by value across [bool], [int] and [float]; containers
    compare element-wise; values of unrelated types are unequal. *)

Definition float_eq_int (f : spec_float) (z : Z) : bool :=
  match f with
  | S754_zero _ => z =? 0
  | S754_infinity _ | S754_nan => false
  | S754_finite s m e =>
      let sm := if s then Z.neg m else Z.pos m in
      if 0 <=? e then z =? sm * 2 ^ e else sm =? z * 2 ^ (- e)
  end.

Inductive Number : Type :=
| NInt (z : Z)
| NFloat (f : spec_float).

Definition as_number (v : Value) : option Number :=
  match v with
  | VBool b => Some (NInt (Z.b2z b))
  | VInt z => Some (NInt z)
  | VFloat f => Some (NFloat f)
  | _ => None
  end.

Definition number_eq (a b : Number) : bool :=
  match a, b with
  | NInt x, NInt y => x =? y
  | NInt x, NFloat f | NFloat f, NInt x => float_eq_int f x
  | NFloat f, NFloat g => SFeqb f g
  end.

Fixpoint py_eq (x y : Value) {struct x} : bool :=
  match x, y with
  | VNone, VNone => true
  | VStr s, VStr t => String.eqb s t
  | VList a, VList b | VTuple a, VTuple b =>
      (fix all2 (a b : list Value) {struct a} : bool :=
         match a, b with
         | [], [] => true
         | u :: a', v :: b' => py_eq u v && all2 a' b'
         | _, _ => false
         end) a b
  | VDict a, VDict b =>
      (length a =? length b)%nat &&
      (fix sub (a : Dict) {struct a} : bool :=
         match a with
         | [] => true
         | (k, u) :: a' =>
             match dict_get k b with
             | Some v => py_eq u v
             | None => false
             end && sub a'
         end) a
  | VSet a, VSet b =>
      (length a =? length b)%nat &&
      (fix sub (a : list Value) {struct a} : bool :=
         match a with
         | [] => true
         | u :: a' => existsb (py_eq u) b && sub a'
         end) a
  | (VBool _ | VInt _ | VFloat _), (VBool _ | VInt _ | VFloat _) =>
      match as_number x, as_number y with
      | Some n, Some m => number_eq n m
      | _, _ => false
      end
  | _, _ => false
  end.

(** [x in l] for a list [l]: some element equals [x] *)
Definition py_in (x : Value) (l : list Value) : bool := existsb (py_eq x) l.

(** Truth value, [bool(v)] *)
Definition truthy (v : Value) : bool :=
  match v with
  | VNone => false
  | VBool b => b
  | VInt z => negb (z =? 0)
  | VFloat (S754_zero _) => false
  | VFloat _ => true
  | VStr s => negb (String.eqb s "")
  | VList l | VTuple l | VSet l => negb (length l =? 0)%nat
  | VDict d => negb (length d =? 0)%nat
  end.

(** [isinstance(v, int)]: [bool] is a subclass of [int] *)
Definition is_int (v : Value) : option Z :=
  match v with
  | VInt z => Some z
  | VBool b => Some (Z.b2z b)
  | _ => None
  end.

(** ** Exceptions and fallible results *)

Inductive PyExc : Type :=
| ValueError (msg : string)
| Exception (msg : string)
| StopIteration.

(** [str(exc)] *)
Definition exc_text (e : PyExc) : string :=
  match e with
  | ValueError m | Exception m => m
  | StopIteration => ""
  end.

Inductive Result (A : Type) : Type :=
| Ok (a : A)
| Raise (e : PyExc).
Arguments Ok {A} a.
Arguments Raise {A} e.

#[global] Instance Result_ret : MRet Result := λ A a, Ok a.

#[global] Instance Result_bind : MBind Result := λ A B k r,
  match r with
  | Ok a => k a
  | Raise e => Raise e
  end.

(** ** Text: [str] as a sequence of characters *)

Section Seq.
Context {A : Type} `{EqDecision A}.

(** [s.startswith(t)] *)
Fixpoint startswith (t s : list A) : bool :=
  match t, s with
  | [], _ => true
  | x :: t', y :: s' => bool_decide (x = y) && startswith t' s'
  | _ :: _, [] => false
  end.

(** [t in s]: the block [t] starts at some position of [s] *)
Fixpoint contains (t s : list A) : bool :=
  startswith t s ||
  match s with
  | [] => false
  | _ :: s' => contains t s'
  end.

(** [s.replace(old, new)] for a non-empty [old = o :: old']: scan from the
    left; where [old] starts, emit [new] and resume after the match,
    otherwise copy one character.  Matches never overlap. *)
Equations? replace_ne (o : A) (old' new : list A) (s : list A) : list A
  by wf (length s) lt :=
  replace_ne o old' new [] := [];
  replace_ne o old' new (c :: s') with startswith (o :: old') (c :: s') => {
    | true := new ++ replace_ne o old' new (drop (length old') s');
    | false := c :: replace_ne o old' new s' }.
Proof. all: try rewrite length_drop; simpl; lia. Qed.

(** [s.replace(old, new)]; an empty [old] matches before every character
    and at the end *)
Definition replace (old new s : list A) : list A :=
  match old with
  | [] => new ++ flat_map (λ c, c :: new) s
  | o :: old' => replace_ne o old' new s
  end.

(** [t] occurs in [s] as a contiguous block *)
Definition occurs (t s : list A) : Prop := ∃ pre post, s = pre ++ t ++ post.
End Seq.

Abbreviation chars := list_ascii_of_string.
Abbreviation text := string_of_list_ascii.

Definition str_replace (s old new : string) : string :=
  text (replace (chars old) (chars new) (chars s)).

(** [t in s] on strings *)
Definition str_in (t s : string) : bool := contains (chars t) (chars s).

(** ** [airbyte_secrets_utils]: the secret registry and masking

    The module-level list [__SECRETS_FROM_CONFIG] is passed explicitly. *)

Abbreviation SecretRegistry := (list string).

Definition MASK : string := "****".

(** A string made of [n] mask tokens *)
Fixpoint mask_tokens (n : nat) : string :=
  match n with
  | O => ""
  | S n => MASK ++ mask_tokens n
  end.

Definition update_secrets (secrets : list string) (_ : SecretRegistry)
  : SecretRegistry := secrets.

Definition add_to_secrets (secret : string) (registry : SecretRegistry)
  : SecretRegistry := registry ++ [secret].

(** [for secret in __SECRETS_FROM_CONFIG: if secret: string = string.replace(...)] *)
Fixpoint filter_secrets (registry : SecretRegistry) (string_ : string) : string :=
  match registry with
  | [] => string_
  | secret :: rest =>
      filter_secrets rest
        (if negb (String.eqb secret "") then str_replace string_ secret MASK
         else string_)
  end.

(** ** [sources/types.py]: StreamSlice and Record

    A constituent of a [StreamSlice] is a [Mapping]: a plain [dict] or, when
    slices are nested, another [StreamSlice]. *)

Inductive Mapping : Type :=
| MDict (d : Dict)
| MSlice (s : StreamSlice)
with StreamSlice : Type :=
| mkStreamSlice (_partition _cursor_slice _extra_fields : Mapping)
    (_stream_slice : Dict).

Definition _partition (self : StreamSlice) : Mapping :=
  let 'mkStreamSlice p _ _ _ := self in p.
Definition _cursor_slice (self : StreamSlice) : Mapping :=
  let 'mkStreamSlice _ c _ _ := self in c.
Definition _extra_fields (self : StreamSlice) : Mapping :=
  let 'mkStreamSlice _ _ e _ := self in e.
Definition _stream_slice (self : StreamSlice) : Dict :=
  let 'mkStreamSlice _ _ _ ss := self in ss.

(** [dict(m)]; also the view behind [m.keys()], [len(m)] and [m[k]] *)
Definition mapping_dict (m : Mapping) : Dict :=
  match m with
  | MDict d => d
  | MSlice s => _stream_slice s
  end.

(** [a.keys() & b.keys()] *)
Definition keys_intersection (a b : Mapping) : list string :=
  filter (λ k, k ∈ dict_keys (mapping_dict b)) (dict_keys (mapping_dict a)).

(** [==] between two mappings.  A [dict] does not know [StreamSlice], so
    [dict == slice] falls to the reflected [slice.__eq__(dict)]. *)
Fixpoint mapping_eq (m1 m2 : Mapping) {struct m1} : bool :=
  match m1, m2 with
  | MDict a, MDict b => py_eq (VDict a) (VDict b)
  | MDict a, MSlice s => py_eq (VDict (_stream_slice s)) (VDict a)
  | MSlice s, _ => slice_eq s m2
  end
with slice_eq (self : StreamSlice) (other : Mapping) {struct self} : bool :=
  match self, other with
  | mkStreamSlice _ _ _ ss, MDict d => py_eq (VDict ss) (VDict d)
  | mkStreamSlice p c _ _, MSlice o =>
      mapping_eq p (_partition o) && mapping_eq c (_cursor_slice o)
  end.

Record Record_ : Type := mkRecord {
  _data : Mapping;
  _associated_slice : option StreamSlice;
}.

(** What [other: object] may be in an [__eq__] *)
Inductive PyObj : Type :=
| OValue (v : Value)
| OSlice (s : StreamSlice)
| ORecord (r : Record_).

Module StreamSlice.

Definition __init__ (partition cursor_slice : Mapping)
    (extra_fields : option Mapping) : Result StreamSlice :=
  let extra :=
    match extra_fields with
    | Some m => if (length (mapping_dict m) =? 0)%nat then MDict [] else m
    | None => MDict []
    end in
  if negb (length (keys_intersection partition cursor_slice) =? 0)%nat then
    Raise (ValueError
             "Keys for partition and incremental sync cursor should not overlap")
  else
    Ok (mkStreamSlice partition cursor_slice extra
          (dict_union (mapping_dict partition) (mapping_dict cursor_slice))).

(** The loop [while isinstance(p, StreamSlice): p = p.<property>], where
    [get] is the property read on the inner slice and [n] bounds the number of
    iterations. *)
Fixpoint while_StreamSlice (get : StreamSlice → option Mapping) (n : nat)
    (p : Mapping) : option Mapping :=
  match p, n with
  | MSlice s, S n => p' ← get s; while_StreamSlice get n p'
  | MSlice _, O => None
  | MDict _, _ => Some p
  end.

(** The [partition] property.  The loop calls the property again on the inner
    slice; [fuel] bounds the depth of these calls and the iterations. *)
Fixpoint partition (fuel : nat) (self : StreamSlice) : option Mapping :=
  match fuel with
  | O => None
  | S fuel => while_StreamSlice (partition fuel) fuel (_partition self)
  end.

Fixpoint cursor_slice (fuel : nat) (self : StreamSlice) : option Mapping :=
  match fuel with
  | O => None
  | S fuel => while_StreamSlice (cursor_slice fuel) fuel (_cursor_slice self)
  end.

Definition extra_fields (self : StreamSlice) : Mapping := _extra_fields self.

Definition __eq__ (self : StreamSlice) (other : PyObj) : bool :=
  match other with
  | OValue (VDict d) => py_eq (VDict (_stream_slice self)) (VDict d)
  | OSlice o =>
      mapping_eq (_partition self) (_partition o)
      && mapping_eq (_cursor_slice self) (_cursor_slice o)
  | _ => false
  end.

Definition __ne__ (self : StreamSlice) (other : PyObj) : bool :=
  negb (__eq__ self other).

End StreamSlice.

Module Record_.

Definition __init__ (data : Mapping) (associated_slice : option StreamSlice)
  : Record_ := mkRecord data associated_slice.

Definition data (self : Record_) : Mapping := _data self.
Definition associated_slice (self : Record_) : option StreamSlice :=
  _associated_slice self.

Definition __eq__ (self : Record_) (other : PyObj) : bool :=
  match other with
  | ORecord o => mapping_eq (_data self) (_data o)
  | _ => false
  end.

Definition __ne__ (self : Record_) (other : PyObj) : bool :=
  negb (__eq__ self other).

End Record_.

(** The operator [x == y]: the left operand's [__eq__] answers, except that a
    built-in value facing a [Record] or a [StreamSlice] returns
    [NotImplemented] and the reflected [y.__eq__(x)] decides. *)
Definition py_equals (x y : PyObj) : bool :=
  match x, y with
  | ORecord r, _ => Record_.__eq__ r y
  | OSlice s, _ => StreamSlice.__eq__ s y
  | OValue u, OValue v => py_eq u v
  | OValue _, ORecord r => Record_.__eq__ r x
  | OValue _, OSlice s => StreamSlice.__eq__ s x
  end.

(** ** Interpolation

    The template engine ([JinjaInterpolation], [InterpolatedString]) is an
    external collaborator: an interface whose results are arbitrary values. *)

Abbreviation Kwargs := (list (string * PyObj)).

Class Interpolation : Type := {
  (** [JinjaInterpolation().eval(input_str, config, default,
      parameters=parameters, **kwargs)] *)
  jinja_eval : string → Dict → string → Dict → Kwargs → Value;
  (** [InterpolatedString(string, parameters=parameters).eval(config, **kwargs)] *)
  interpolated_string_eval : string → Dict → Dict → Kwargs → Value;
}.

Record InterpolatedString : Type := mkInterpolatedString {
  is_string : string;
  is_parameters : Dict;
}.

(** *** [interpolated_boolean.py] *)

Definition FALSE_VALUES : list Value :=
  [ VStr "False"; VStr "false"; VStr "{}"; VStr "[]"; VStr "()"; VStr "";
    VStr "0"; VStr "0.0"; VDict []; VBool false; VList []; VTuple []; VSet [] ].

Module InterpolatedBoolean.

(** [condition] is annotated [str]; [eval] also accepts a [bool] *)
Inductive Condition : Type :=
| CBool (b : bool)
| CStr (s : string).

Record t : Type := mk {
  condition : Condition;
  _default : string;
  _parameters : Dict;
}.

Definition __post_init__ (condition : Condition) (parameters : Dict) : t :=
  {| condition := condition; _default := "False"; _parameters := parameters |}.

Definition eval `{Interpolation} (self : t) (config : Dict)
    (additional_parameters : Kwargs) : bool :=
  match condition self with
  | CBool b => b
  | CStr c =>
      let evaluated :=
        jinja_eval c config (_default self) (_parameters self)
          additional_parameters in
      if py_in evaluated FALSE_VALUES then false
      else true
  end.

End InterpolatedBoolean.

(** ** Pagination strategies *)

(** [requests.Response], as far as the strategies read it.  [links] is the
    view that [requests] parses out of the response's own [Link] header; the
    parser is not part of this repository, so the parsed view is carried
    beside the headers.  Every response the code receives is such a record
    (with the two in agreement); a statement over all records covers them, and
    none below builds a response by changing one of the two alone. *)
Record Response : Type := mkResponse {
  headers : Dict;
  links : Dict;
  content : string;
}.

(** *** [page_increment.py] *)

Module PageIncrement.

(** [page_size: str | int | None]; a [bool] is an [int] *)
Inductive PageSize : Type :=
| PSInt (z : Z)
| PSNone
| PSStr (s : string).

Record t : Type := mk {
  config : Dict;
  page_size : PageSize;
  start_from_page : Z;
  inject_on_first_request : bool;
  _page : Z;
  _page_size : option Z;
}.

Definition set_page (self : t) (page : Z) : t :=
  mk (config self) (page_size self) (start_from_page self)
     (inject_on_first_request self) page (_page_size self).

Definition __post_init__ `{Interpolation} (config : Dict)
    (page_size : PageSize) (parameters : Dict) (start_from_page : Z)
    (inject_on_first_request : bool) : Result t :=
  let new := mk config page_size start_from_page inject_on_first_request
               start_from_page in
  match page_size with
  | PSInt z => Ok (new (Some z))
  | PSNone => Ok (new None)
  | PSStr s =>
      let page_size := interpolated_string_eval s parameters config [] in
      match is_int page_size with
      | Some z => Ok (new (Some z))
      | None =>
          (* the message of the source also spells the value and its type *)
          Raise (Exception "page_size is not of type int")
      end
  end.

Definition initial_token (self : t) : option Z :=
  if inject_on_first_request self then Some (_page self) else None.

(** [response] and [last_record] are unused *)
Definition next_page_token (self : t) (response : Response)
    (last_page_size : Z) (last_record : option Record_) : t * option Z :=
  if match _page_size self with
     | Some page_size => negb (page_size =? 0) && (last_page_size <? page_size)
     | None => false
     end
     || (last_page_size =? 0)
  then (self, None)
  else
    let self := set_page self (_page self + 1) in
    (self, Some (_page self)).

Definition reset (self : t) (reset_value : Value) : Result t :=
  match reset_value with
  | VNone => Ok (set_page self (start_from_page self))
  | _ =>
      match is_int reset_value with
      | None =>
          Raise (ValueError
                   "Reset value for PageIncrement pagination strategy was not an integer")
      | Some z => Ok (set_page self z)
      end
  end.

Definition get_page_size (self : t) : option Z := _page_size self.

(** Feed the strategy the record counts of successive pages *)
Fixpoint feed (self : t) (response : Response) (sizes : list Z)
  : t * list (option Z) :=
  match sizes with
  | [] => (self, [])
  | n :: sizes =>
      let '(self, token) := next_page_token self response n None in
      let '(self, tokens) := feed self response sizes in
      (self, token :: tokens)
  end.

End PageIncrement.

(** *** [cursor_pagination_strategy.py] *)

Module CursorPaginationStrategy.

Record t : Type := mk {
  config : Dict;
  page_size : option Z;
  (** [decoder.decode(response)]: the generator's items *)
  decoder : Response → list Value;
  _initial_cursor : Value;
  _cursor_value : InterpolatedString;
  _stop_condition : option InterpolatedBoolean.t;
}.

Inductive StopCondition : Type :=
| SCNone
| SCStr (s : string)
| SCInterpolated (b : InterpolatedBoolean.t).

Definition __post_init__ (cursor_value : string + InterpolatedString)
    (config : Dict) (parameters : Dict) (page_size : option Z)
    (stop_condition : StopCondition) (decoder : Response → list Value) : t :=
  {| config := config;
     page_size := page_size;
     decoder := decoder;
     _initial_cursor := VNone;
     _cursor_value :=
       match cursor_value with
       | inl s => mkInterpolatedString s parameters
       | inr i => i
       end;
     _stop_condition :=
       match stop_condition with
       | SCNone => None
       | SCStr s =>
           Some (InterpolatedBoolean.__post_init__
                   (InterpolatedBoolean.CStr s) parameters)
       | SCInterpolated b => Some b
       end |}.

Definition initial_token (self : t) : Value := _initial_cursor self.

(** The keyword arguments handed to both templates *)
Definition context (decoded_response : Value) (headers : Dict)
    (last_record : option Record_) (last_page_size : Z) : Kwargs :=
  [ ("response", OValue decoded_response);
    ("headers", OValue (VDict headers));
    ("last_record",
      match last_record with
      | Some r => ORecord r
      | None => OValue VNone
      end);
    ("last_page_size", OValue (VInt last_page_size)) ].

Definition next_page_token `{Interpolation} (self : t) (response : Response)
    (last_page_size : Z) (last_record : option Record_)
  : Result (option Value) :=
  decoded_response ←
    match decoder self response with
    | d :: _ => Ok d
    | [] => Raise StopIteration
    end;
  let headers := dict_set "link" (VDict (links response)) (headers response) in
  let kwargs := context decoded_response headers last_record last_page_size in
  let should_stop :=
    match _stop_condition self with
    | Some stop_condition =>
        InterpolatedBoolean.eval stop_condition (config self) kwargs
    | None => false
    end in
  if should_stop then Ok None
  else
    let token :=
      interpolated_string_eval (is_string (_cursor_value self))
        (is_parameters (_cursor_value self)) (config self) kwargs in
    Ok (if truthy token then Some token else None).

Definition reset (self : t) (reset_value : Value) : t :=
  mk (config self) (page_size self) (decoder self) reset_value
     (_cursor_value self) (_stop_condition self).

Definition get_page_size (self : t) : option Z := page_size self.

End CursorPaginationStrategy.

(** *** The strategy interface *)

(** Modelled from the spec: [PaginationStrategy], the base class both
    strategies extend, is not among the sources; the capability set of §4.2.
    The caller resets a strategy, without a value, at each partition
    boundary. *)
Class PaginationStrategy (P : Type) : Type := {
  initial_token : P → option Value;
  next_page_token :
    P → Response → Z → option Record_ → Result (P * option Value);
  reset : P → Result P;
}.

#[global] Instance PageIncrement_strategy : PaginationStrategy PageIncrement.t := {|
  initial_token self := VInt <$> PageIncrement.initial_token self;
  next_page_token self response last_page_size last_record :=
    let '(self, token) :=
      PageIncrement.next_page_token self response last_page_size last_record in
    Ok (self, VInt <$> token);
  reset self := PageIncrement.reset self VNone;
|}.

#[global] Instance CursorPagination_strategy `{Interpolation}
  : PaginationStrategy CursorPaginationStrategy.t := {|
  initial_token self :=
    match CursorPaginationStrategy.initial_token self with
    | VNone => None
    | v => Some v
    end;
  next_page_token self response last_page_size last_record :=
    token ← CursorPaginationStrategy.next_page_token self response
               last_page_size last_record;
    Ok (self, token);
  reset self := Ok (CursorPaginationStrategy.reset self VNone);
|}.

(** ** The bounded test read *)

(** Modelled from the spec: [TestReadLimits] of the connector builder is not
    among the sources; three ceilings with the defaults of §6. *)
Record TestReadLimits : Type := mkTestReadLimits {
  max_records : nat;
  max_pages_per_slice : nat;
  max_slices : nat;
}.

(** Modelled from the spec: the defaults of §6, constants of the connector
    builder's handler, which is not among the sources. *)
Definition DEFAULT_MAXIMUM_RECORDS : nat := 100.
(** Modelled from the spec: the default [max_slices] of §6. *)
Definition DEFAULT_MAXIMUM_NUMBER_OF_SLICES : nat := 5.
(** Modelled from the spec: the default [max_pages_per_slice] of §6. *)
Definition DEFAULT_MAXIMUM_NUMBER_OF_PAGES_PER_SLICE : nat := 5.

(** Modelled from the spec: the report shape of §3 and §6 ([StreamRead],
    [StreamReadSlices], [StreamReadPages], [LogMessage] of the connector
    builder's models, which are not among the sources). *)
Record StreamReadPages : Type := mkStreamReadPages {
  records : list Record_;
  request : option Value;
  response : option Response;
}.

Record StreamReadSlices : Type := mkStreamReadSlices {
  pages : list StreamReadPages;
  slice_descriptor : option StreamSlice;
  state : option Value;
}.

Record LogMessage : Type := mkLogMessage {
  message : string;
  level : string;
  internal_message : option string;
  stacktrace : option string;
}.

Record StreamRead : Type := mkStreamRead {
  logs : list LogMessage;
  slices : list StreamReadSlices;
  test_read_limit_reached : bool;
  auxiliary_requests : list Value;
  inferred_schema : option Value;
  inferred_datetime_formats : Dict;
  latest_config_update : option Dict;
}.

(** Modelled from the spec: the retrieval pipeline boundary of §6,
    [list_partitions] and [fetch_next_page], over the state [W] of the
    outside world (the transport); the pipeline itself is not among the
    sources. *)
Record RetrievalPipeline (W : Type) : Type := mkRetrievalPipeline {
  list_partitions : W → Result (list StreamSlice);
  fetch_next_page :
    StreamSlice → option Value → W → Result (StreamReadPages * W);
}.
Arguments list_partitions {W} _ _.
Arguments fetch_next_page {W} _ _ _ _.

(** Modelled from the spec: how the walk over one partition ends, after §4.5
    steps 3, 4 and 6 (the orchestrator is not among the sources). *)
Inductive Outcome : Type :=
| Exhausted
| RecordLimit
| ReadRaised (e : PyExc)
| PaginationRaised (e : PyExc).

Section TestRead.
Context {P W : Type} `{PaginationStrategy P}.
Variable limits : TestReadLimits.
Variable registry : SecretRegistry.
(** [traceback] formatting of an exception *)
Variable format_exception : PyExc → string.
Variable pipeline : RetrievalPipeline W.

(** Modelled from the spec: what the walk over one partition leaves behind
    (the orchestrator is not among the sources). *)
Record PartitionRead : Type := mkPartitionRead {
  pr_pages : list StreamReadPages;
  pr_paginator : P;
  pr_world : W;
  pr_count : nat;
  pr_outcome : Outcome;
}.

(** Modelled from the spec: §4.5 steps 3, 4 and 6, the redacted error-level
    log entry made of a caught exception (the orchestrator is not among the
    sources); the masking itself is [filter_secrets] of the sources. *)
Definition error_log (e : PyExc) : LogMessage :=
  {| message := filter_secrets registry (exc_text e);
     level := "ERROR";
     internal_message := Some (filter_secrets registry (exc_text e));
     stacktrace := Some (filter_secrets registry (format_exception e)) |}.

(** Modelled from the spec: §4.5 steps 2 to 4, the pages of one partition
    (the orchestrator and its limiting decorator are not among the
    sources).  At most [budget] pages are fetched; the walk ends when the
    strategy returns no token, when the pipeline returns no response, when
    the global record count reaches [max_records], or on an exception. *)
Fixpoint read_pages (budget : nat) (partition : StreamSlice) (paginator : P)
    (token : option Value) (w : W) (count : nat) : PartitionRead :=
  match budget with
  | O => mkPartitionRead [] paginator w count Exhausted
  | S budget =>
      match fetch_next_page pipeline partition token w with
      | Raise e => mkPartitionRead [] paginator w count (ReadRaised e)
      | Ok (page, w) =>
          let count := (count + length (records page))%nat in
          let stop := mkPartitionRead [page] paginator w count in
          if (max_records limits <=? count)%nat then stop RecordLimit
          else
            match response page with
            | None => stop Exhausted
            | Some r =>
                match next_page_token paginator r
                        (Z.of_nat (length (records page)))
                        (list.last (records page)) with
                | Raise e => stop (PaginationRaised e)
                | Ok (paginator, None) =>
                    mkPartitionRead [page] paginator w count Exhausted
                | Ok (paginator, Some token) =>
                    let rest :=
                      read_pages budget partition paginator (Some token) w
                        count in
                    mkPartitionRead (page :: pr_pages rest)
                      (pr_paginator rest) (pr_world rest) (pr_count rest)
                      (pr_outcome rest)
                end
            end
      end
  end.

(** Modelled from the spec: what the walk over the partitions leaves behind
    (the orchestrator is not among the sources). *)
Record Walk : Type := mkWalk {
  w_slices : list StreamReadSlices;
  w_logs : list LogMessage;
  w_limit_reached : bool;
  w_raised : option PyExc;
  w_world : W;
}.

(** Modelled from the spec: one more partition in front of a walk (the
    orchestrator is not among the sources). *)
Definition walk_cons (s : StreamReadSlices) (l : list LogMessage) (k : Walk)
  : Walk :=
  mkWalk (s :: w_slices k) (l ++ w_logs k) (w_limit_reached k) (w_raised k)
    (w_world k).

(** Modelled from the spec: §4.5 steps 3, 4 and 6 and the failure semantics,
    the walk over the partitions in router order (the orchestrator is not
    among the sources).  The strategy is reset at each partition boundary;
    an error of the strategy abandons the partition and the walk goes on; an
    exception of the underlying read ends the walk and is kept in
    [w_raised]. *)
Fixpoint read_slices (partitions : list StreamSlice) (paginator : P) (w : W)
    (count : nat) : Walk :=
  match partitions with
  | [] => mkWalk [] [] false None w
  | partition :: partitions =>
      match reset paginator with
      | Raise e =>
          walk_cons (mkStreamReadSlices [] (Some partition) None)
            [error_log e] (read_slices partitions paginator w count)
      | Ok paginator =>
          let r :=
            read_pages (max_pages_per_slice limits) partition paginator
              (initial_token paginator) w count in
          let slice := mkStreamReadSlices (pr_pages r) (Some partition) None in
          match pr_outcome r with
          | Exhausted =>
              walk_cons slice []
                (read_slices partitions (pr_paginator r) (pr_world r)
                   (pr_count r))
          | PaginationRaised e =>
              walk_cons slice [error_log e]
                (read_slices partitions (pr_paginator r) (pr_world r)
                   (pr_count r))
          | RecordLimit => mkWalk [slice] [] true None (pr_world r)
          | ReadRaised e => mkWalk [slice] [] false (Some e) (pr_world r)
          end
      end
  end.

(** Modelled from the spec: the underlying read under the ceilings of §4.5
    step 2, at most [max_slices] partitions (the limiting decorator is not
    among the sources).  An exception while the partitions are listed is an
    exception of the read. *)
Definition test_read (paginator : P) (w : W) : Walk :=
  match list_partitions pipeline w with
  | Raise e => mkWalk [] [] false (Some e) w
  | Ok partitions =>
      read_slices (take (max_slices limits) partitions) paginator w 0%nat
  end.

(** Modelled from the spec: [read_stream], the orchestrator of §4.5 (the
    connector builder's handler is not among the sources).  It returns a
    report and never raises: an exception of the underlying read becomes a
    redacted error-level log entry (step 6).  Auxiliary requests, schema
    inference and config updates are outside this model and reported
    absent. *)
Definition read_stream (paginator : P) (w : W) : StreamRead :=
  let walk := test_read paginator w in
  {| logs :=
       w_logs walk ++
       match w_raised walk with
       | Some e => [error_log e]
       | None => []
       end;
     slices := w_slices walk;
     test_read_limit_reached := w_limit_reached walk;
     auxiliary_requests := [];
     inferred_schema := None;
     inferred_datetime_formats := [];
     latest_config_update := None |}.
End TestRead.



(** ** Fixtures of the unit tests

    The manifest, the mocked session and the failing source of
    [test_connector_builder_handler.py], used below as concrete inputs. *)

(** [v[k1][k2]...]; a missing key renders as the empty string *)
Fixpoint lookup_path (path : list string) (v : Value) : Value :=
  match path with
  | [] => v
  | k :: path =>
      match v with
      | VDict d =>
          match dict_get k d with
          | Some v => lookup_path path v
          | None => VStr ""
          end
      | _ => VStr ""
      end
  end.

Definition kwarg (name : string) (kwargs : Kwargs) : Value :=
  match list_find (λ kv, kv.1 = name) kwargs with
  | Some (_, (_, OValue v)) => v
  | _ => VNone
  end.

(** An engine that knows the templates of the test manifest and returns any
    other string as it is *)
Definition manifest_interpolation : Interpolation := {|
  jinja_eval s _ _ _ kwargs :=
    if String.eqb s "{{ response._metadata.last }}" then
      lookup_path ["_metadata"; "last"] (kwarg "response" kwargs)
    else VStr s;
  interpolated_string_eval s _ _ kwargs :=
    if String.eqb s "{{ response._metadata.next }}" then
      lookup_path ["_metadata"; "next"] (kwarg "response" kwargs)
    else VStr s;
|}.

(** The two page bodies the mocked session returns in turn *)
Definition first_page_body : Value :=
  VDict [ ("result", VList [VDict [("id", VInt 0)]; VDict [("id", VInt 1)]]);
          ("_metadata", VDict [("next", VStr "next")]) ].

Definition second_page_body : Value :=
  VDict [ ("result", VList [VDict [("id", VInt 2)]]);
          ("_metadata", VDict [("next", VStr "next")]) ].

Definition mock_response (n : nat) : Response :=
  mkResponse [] [] (if Nat.even n then "first" else "second").

Definition mock_decoder (r : Response) : list Value :=
  if String.eqb (content r) "first" then [first_page_body]
  else [second_page_body].

(** [record_selector: extractor: field_path: ["result"]] *)
Definition extract_records (partition : StreamSlice) (body : Value)
  : list Record_ :=
  match lookup_path ["result"] body with
  | VList l =>
      omap (λ v, match v with
                 | VDict d => Some (mkRecord (MDict d) (Some partition))
                 | _ => None
                 end) l
  | _ => []
  end.

(** The pipeline over [requests.Session.send] patched with the two responses
    repeated: the world is the number of requests sent so far *)
Definition mock_pipeline (partitions : list StreamSlice) : RetrievalPipeline nat := {|
  list_partitions _ := Ok partitions;
  fetch_next_page partition token n :=
    let r := mock_response n in
    Ok (mkStreamReadPages
          (flat_map (extract_records partition) (mock_decoder r))
          (Some (VDict [("url", VStr "https://api.sendgrid.com/v3/marketing/lists")]))
          (Some r),
        S n);
|}.

(** [pagination_strategy: CursorPagination] of the manifest *)
Definition manifest_paginator : CursorPaginationStrategy.t :=
  CursorPaginationStrategy.__post_init__ (inl "{{ response._metadata.next }}")
    [] [] (Some 2) CursorPaginationStrategy.SCNone mock_decoder.

(** A slice of [ListPartitionRouter] with [cursor_field: item_id] *)
Definition list_partition (value : string) : StreamSlice :=
  mkStreamSlice (MDict [("item_id", VStr value)]) (MDict []) (MDict [])
    [("item_id", VStr value)].

Definition manifest_partitions : list StreamSlice :=
  list_partition <$> ["0"; "1"; "2"; "3"; "4"; "5"; "6"; "7"].

(** A source whose read raises, as [MockManifestDeclarativeSource.read] *)
Definition failing_pipeline (e : PyExc) : RetrievalPipeline () := {|
  list_partitions _ := Raise e;
  fetch_next_page _ _ _ := Raise e;
|}.

Definition a_page_increment : PageIncrement.t :=
  PageIncrement.mk [] (PageIncrement.PSInt 2) 0 false 0 (Some 2).

(** Nested slices *)
Definition inner_9 : StreamSlice :=
  mkStreamSlice (MDict [("p", VInt 1)]) (MDict [("x", VInt 9)]) (MDict [])
    [("p", VInt 1); ("x", VInt 9)].

Definition inner_8 : StreamSlice :=
  mkStreamSlice (MDict [("p", VInt 1)]) (MDict [("x", VInt 8)]) (MDict [])
    [("p", VInt 1); ("x", VInt 8)].

Definition outer (inner : StreamSlice) : StreamSlice :=
  mkStreamSlice (MSlice inner) (MDict [("c", VInt 2)]) (MDict [])
    (dict_union (_stream_slice inner) [("c", VInt 2)]).

(** ** Classification of interpolated results

    The values that compare equal to a member of [FALSE_VALUES]: the eight
    spellings, the empty containers, and the numbers equal to [False]. *)
Inductive false_like : Value → Prop :=
| false_like_str s :
    s ∈ ["False"; "false"; "{}"; "[]"; "()"; ""; "0"; "0.0"] →
    false_like (VStr s)
| false_like_dict : false_like (VDict [])
| false_like_list : false_like (VList [])
| false_like_tuple : false_like (VTuple [])
| false_like_set : false_like (VSet [])
| false_like_bool : false_like (VBool false)
| false_like_int : false_like (VInt 0)
| false_like_float s : false_like (VFloat (S754_zero s)).

(** The values Python treats as false: [None], [False], the zeros, the empty
    string and the empty containers *)
Inductive falsy : Value → Prop :=
| falsy_None : falsy VNone
| falsy_False : falsy (VBool false)
| falsy_zero : falsy (VInt 0)
| falsy_float_zero s : falsy (VFloat (S754_zero s))
| falsy_empty_str : falsy (VStr "")
| falsy_empty_list : falsy (VList [])
| falsy_empty_tuple : falsy (VTuple [])
| falsy_empty_dict : falsy (VDict [])
| falsy_empty_set : falsy (VSet []).

(** A context whose response carries [_metadata.last] *)
Definition last_context (last : Value) : Kwargs :=
  [("response", OValue (VDict [("_metadata", VDict [("last", last)])]))].

Definition last_condition : InterpolatedBoolean.t :=
  InterpolatedBoolean.__post_init__
    (InterpolatedBoolean.CStr "{{ response._metadata.last }}") [].

(** ** Nesting of slices, in the words of the specification

    "Identity resolution unwraps recursively to the innermost mapping": follow
    the partition constituents (respectively the cursor constituents) down to
    the first plain mapping. *)
Fixpoint unwrap_partition (m : Mapping) : Dict :=
  match m with
  | MDict d => d
  | MSlice (mkStreamSlice p _ _ _) => unwrap_partition p
  end.

Fixpoint unwrap_cursor_slice (m : Mapping) : Dict :=
  match m with
  | MDict d => d
  | MSlice (mkStreamSlice _ c _ _) => unwrap_cursor_slice c
  end.

Definition innermost_partition (s : StreamSlice) : Dict :=
  unwrap_partition (_partition s).

Definition innermost_cursor_slice (s : StreamSlice) : Dict :=
  unwrap_cursor_slice (_cursor_slice s).

(** How many slices the partition (cursor) constituents are wrapped in *)
Fixpoint partition_depth (m : Mapping) : nat :=
  match m with
  | MDict _ => 0
  | MSlice (mkStreamSlice p _ _ _) => S (partition_depth p)
  end.

Fixpoint cursor_slice_depth (m : Mapping) : nat :=
  match m with
  | MDict _ => 0
  | MSlice (mkStreamSlice _ c _ _) => S (cursor_slice_depth c)
  end.

(** Two mappings are nested alike: both plain, or both slices whose
    constituents are nested alike *)
Fixpoint same_shape (m1 m2 : Mapping) {struct m1} : bool :=
  match m1, m2 with
  | MDict _, MDict _ => true
  | MSlice (mkStreamSlice p1 c1 _ _), MSlice (mkStreamSlice p2 c2 _ _) =>
      same_shape p1 p2 && same_shape c1 c2
  | _, _ => false
  end.

(** The keys two mappings share *)
Definition share_a_key (a b : Mapping) : Prop :=
  ∃ k, k ∈ dict_keys (mapping_dict a) ∧ k ∈ dict_keys (mapping_dict b).

(** The plain slice with the keys of [outer inner_9] *)
Definition flat_9 : StreamSlice :=
  mkStreamSlice (MDict [("p", VInt 1); ("x", VInt 9)]) (MDict [("c", VInt 2)])
    (MDict []) [("p", VInt 1); ("x", VInt 9); ("c", VInt 2)].

(** A last page: the body carries a next cursor and says it is the last *)
Definition last_page_body : Value :=
  VDict [ ("result", VList [VDict [("id", VInt 2)]]);
          ("_metadata", VDict [("next", VStr "next"); ("last", VBool true)]) ].

(** A cursor strategy with [stop_condition: "{{ response._metadata.last }}"] *)
Definition stopping_paginator : CursorPaginationStrategy.t :=
  CursorPaginationStrategy.__post_init__ (inl "{{ response._metadata.next }}")
    [] [] (Some 2)
    (CursorPaginationStrategy.SCStr "{{ response._metadata.last }}")
    (λ _, [last_page_body]).

(** A page without a next cursor: the body has no [_metadata] *)
Definition cursorless_page_body : Value :=
  VDict [ ("result", VList [VDict [("id", VInt 3)]]) ].

(** The cursor strategy of the manifest, without a stop condition, over a
    decoder that yields the page without a next cursor *)
Definition cursorless_paginator : CursorPaginationStrategy.t :=
  CursorPaginationStrategy.__post_init__ (inl "{{ response._metadata.next }}")
    [] [] (Some 2) CursorPaginationStrategy.SCNone
    (λ _, [cursorless_page_body]).

(** The strategy with the stop condition, over a decoder that yields
    nothing *)
Definition silent_paginator : CursorPaginationStrategy.t :=
  CursorPaginationStrategy.__post_init__ (inl "{{ response._metadata.next }}")
    [] [] (Some 2)
    (CursorPaginationStrategy.SCStr "{{ response._metadata.last }}")
    (λ _, []).

(** [TestReadLimits()] and the limits of [test_read_source] *)
Definition default_limits : TestReadLimits :=
  mkTestReadLimits DEFAULT_MAXIMUM_RECORDS
    DEFAULT_MAXIMUM_NUMBER_OF_PAGES_PER_SLICE DEFAULT_MAXIMUM_NUMBER_OF_SLICES.

Definition test_read_source_limits : TestReadLimits :=
  mkTestReadLimits 100 2 3.

(** [traceback.TracebackException.from_exception] as the test patches it *)
Definition a_stack_trace (_ : PyExc) : string := "a stack trace".

(** The bounded read of the mocked source of [test_read_source] *)
Definition mock_test_read (partitions : list StreamSlice) : Walk :=
  test_read (H := @CursorPagination_strategy manifest_interpolation)
    test_read_source_limits [] a_stack_trace (mock_pipeline partitions)
    manifest_paginator 0%nat.

Definition mock_read_stream (partitions : list StreamSlice) : StreamRead :=
  read_stream (H := @CursorPagination_strategy manifest_interpolation)
    test_read_source_limits [] a_stack_trace (mock_pipeline partitions)
    manifest_paginator 0%nat.

(** The number of records on each page of a slice *)
Definition page_sizes (s : StreamReadSlices) : list nat :=
  (λ p, length (records p)) <$> pages s.

(** The read of a source that raises [e], with [registry] registered *)
Definition failing_read_stream (registry : SecretRegistry) (e : PyExc)
  : StreamRead :=
  read_stream default_limits registry a_stack_trace (failing_pipeline e)
    a_page_increment ().

(** Modelled from the spec: a pipeline of §6 that also counts the pages it
    has fetched. *)
Definition counted {W : Type} (pipeline : RetrievalPipeline W)
  : RetrievalPipeline (W * nat) := {|
  list_partitions w := list_partitions pipeline w.1;
  fetch_next_page partition token w :=
    '(page, w') ← fetch_next_page pipeline partition token w.1;
    Ok (page, (w', S w.2));
|}.

(** Modelled from the spec: the pages of a report of §3, over all its
    partitions. *)
Definition page_count (slices : list StreamReadSlices) : nat :=
  sum_list ((λ s, length (pages s)) <$> slices).

(** ** The underlying read and the serialized report *)

Section UnderlyingRead.
Context {P W : Type} `{PaginationStrategy P}.
Variable limits : TestReadLimits.
Variable pipeline : RetrievalPipeline W.





End UnderlyingRead.






(** Modelled from the spec: the message in which the handler answers (the
    connector builder's handler is not among the sources): the report, in a
    RECORD message, or a TRACE message, of which the error message is kept,
    as [test_read_stream_exception_with_secrets] reads it. *)
Inductive AirbyteMessage : Type :=
| RECORD (data : StreamRead)
| TRACE (error_message : string).

(** Modelled from the spec: §7, every error is caught at the orchestrator
    boundary and redacted (the connector builder's handler is not among the
    sources).  [get_message_groups] is the grouping of the read into a report,
    which [test_read_stream_exception_with_secrets] patches to raise: the
    answer is then no report but a TRACE message with a masked text;
    [error_wording] is how the handler words the error around the text of the
    exception. *)
Definition read_stream_answer (registry : SecretRegistry)
    (error_wording : PyExc → string) (get_message_groups : Result StreamRead)
  : AirbyteMessage :=
  match get_message_groups with
  | Ok stream_read => RECORD stream_read
  | Raise exc => TRACE (filter_secrets registry (error_wording exc))
  end.




(** A wording of the error around the text of the exception *)
Definition a_wording (e : PyExc) : string :=
  ("Error reading stream: " ++ exc_text e)%string.

(** ** [airbyte_secrets_utils.get_secret_paths] *)

(** The paths collected so far, or the [IndexError] of [path[-1]] on an
    empty path *)
Inductive PathsResult : Type :=
| Paths (paths : list (list string))
| RaiseIndexError.

(** The loops [for ... : traverse_schema(...)]: the calls run in order and
    append to [paths]; the first exception ends the traversal *)
Fixpoint sequence_paths (results : list PathsResult) : PathsResult :=
  match results with
  | [] => Paths []
  | RaiseIndexError :: _ => RaiseIndexError
  | Paths ps :: results =>
      match sequence_paths results with
      | Paths ps' => Paths (ps ++ ps')
      | RaiseIndexError => RaiseIndexError
      end
  end.

(** [p not in {"properties", "oneOf"}] *)
Definition kept_segment (p : string) : bool :=
  negb (String.eqb p "properties" || String.eqb p "oneOf").

(** [[p for p in path[:-1] if p not in {"properties", "oneOf"}]] *)
Definition filtered_path (path : list string) : list string :=
  List.filter kept_segment (removelast path).

Fixpoint traverse_schema (schema_item : Value) (path : list string)
    {struct schema_item} : PathsResult :=
  match schema_item with
  | VDict d =>
      sequence_paths
        (map (λ kv : string * Value, traverse_schema kv.2 (path ++ [kv.1])) d)
  | VList l => sequence_paths (map (λ i, traverse_schema i path) l)
  | _ =>
      match list.last path with
      | None => RaiseIndexError
      | Some segment =>
          if String.eqb segment "airbyte_secret"
             && match schema_item with VBool true => true | _ => false end
          then Paths [filtered_path path]
          else Paths []
      end
  end.

Definition get_secret_paths (spec : Value) : PathsResult :=
  traverse_schema spec [].

(** In the words of the docstring of [traverse_schema]: [raw] is "the path to
    that schema item in the original input", through the keys of nested
    objects (a list adds no segment), and the item is [True]. *)
Inductive leads_to_True : Value → list string → Prop :=
| leads_here : leads_to_True (VBool true) []
| leads_key d k v raw :
    (k, v) ∈ d → leads_to_True v raw → leads_to_True (VDict d) (k :: raw)
| leads_item l v raw :
    v ∈ l → leads_to_True v raw → leads_to_True (VList l) raw.

(** A scalar that the traversal reaches with an empty path: the schema
    itself, or an item of nested lists at its top *)
Inductive bare_scalar : Value → Prop :=
| bare_here v :
    (∀ d, v ≠ VDict d) → (∀ l, v ≠ VList l) → bare_scalar v
| bare_item l v : v ∈ l → bare_scalar v → bare_scalar (VList l).

(** The schema of the docstring of [traverse_schema], under [properties] *)
Definition password_spec : Value :=
  VDict [("properties",
          VDict [("password",
                  VDict [("type", VStr "string");
                         ("airbyte_secret", VBool true)]);
                 ("user", VDict [("type", VStr "string")])])].

(** ** [exception_handler.generate_failed_streams_error_message]

    [repr], the built-in rendering of an exception, is a parameter. *)

Definition newline : string := String "010"%char "".

Definition FAILED_STREAMS : string :=
  "During the sync, the following streams did not sync successfully: ".

(** The items of the list comprehension, one per stream and exception *)
Definition failure_lines (registry : SecretRegistry) (repr : PyExc → string)
    (stream_failures : list (string * list PyExc)) : list string :=
  flat_map
    (λ failure : string * list PyExc,
       map (λ exception,
              (failure.1 ++ ": " ++ filter_secrets registry (repr exception))
              %string)
         failure.2)
    stream_failures.

Definition generate_failed_streams_error_message (registry : SecretRegistry)
    (repr : PyExc → string) (stream_failures : list (string * list PyExc))
  : string :=
  let failures :=
    String.concat newline (failure_lines registry repr stream_failures) in
  (FAILED_STREAMS ++ failures)%string.

(** [repr] of an exception with one string argument, for texts without
    quotes or escapes *)
Definition plain_repr (e : PyExc) : string :=
  match e with
  | ValueError m => ("ValueError('" ++ m ++ "')")%string
  | Exception m => ("Exception('" ++ m ++ "')")%string
  | StopIteration => "StopIteration()"
  end.

(** ** [sources/types.py]: the mapping interface of StreamSlice and Record *)

(** The value found, or the [KeyError] of a missing key *)
Inductive Lookup (A : Type) : Type :=
| Found (a : A)
| RaiseKeyError (key : string).
Arguments Found {A} a.
Arguments RaiseKeyError {A} key.

(** [d[key]] *)
Definition dict_getitem (d : Dict) (key : string) : Lookup Value :=
  match dict_get key d with
  | Some v => Found v
  | None => RaiseKeyError key
  end.

Module StreamSliceView.

Definition __setitem__ (self : StreamSlice) (key : string) (value : Value)
  : Result StreamSlice := Raise (ValueError "StreamSlice is immutable").

Definition __getitem__ (self : StreamSlice) (key : string) : Lookup Value :=
  dict_getitem (_stream_slice self) key.

Definition __len__ (self : StreamSlice) : nat := length (_stream_slice self).

Definition __iter__ (self : StreamSlice) : list string :=
  dict_keys (_stream_slice self).

Definition __contains__ (self : StreamSlice) (item : string) : bool :=
  dict_has item (_stream_slice self).

Definition keys (self : StreamSlice) : list string :=
  dict_keys (_stream_slice self).

Definition items (self : StreamSlice) : Dict := _stream_slice self.

Definition values (self : StreamSlice) : list Value := (_stream_slice self).*2.

(** [get(key, default)] *)
Definition get (self : StreamSlice) (key : string) (default : Value) : Value :=
  match dict_get key (_stream_slice self) with
  | Some v => v
  | None => default
  end.

Definition __json_serializable__ (self : StreamSlice) : Dict :=
  _stream_slice self.

End StreamSliceView.

Module RecordView.

Definition __getitem__ (self : Record_) (key : string) : Lookup Value :=
  dict_getitem (mapping_dict (_data self)) key.

Definition __len__ (self : Record_) : nat :=
  length (mapping_dict (_data self)).

Definition __iter__ (self : Record_) : list string :=
  dict_keys (mapping_dict (_data self)).

Definition __contains__ (self : Record_) (item : string) : bool :=
  dict_has item (mapping_dict (_data self)).

End RecordView.

(** A slice of a partition and a cursor, as a parent-stream router with an
    incremental cursor builds it *)
Definition item_slice : StreamSlice :=
  mkStreamSlice (MDict [("item_id", VStr "0")])
    (MDict [("start", VInt 1); ("end", VInt 2)]) (MDict [])
    [("item_id", VStr "0"); ("start", VInt 1); ("end", VInt 2)].

(** ** [unstructured_parser.UnstructuredParser._params_to_dict]

    An [APIParameterConfigModel] is a pair of a name and a value, both
    strings. *)

Module UnstructuredParser.

(** One turn of the loop [for item in params] *)
Definition add_param (result_dict : Dict) (item : string * string) : Dict :=
  let key := item.1 in
  let value := item.2 in
  match dict_get key result_dict with
  | Some existing_value =>
      match existing_value with
      | VList l => dict_set key (VList (l ++ [VStr value])) result_dict
      | _ => dict_set key (VList [existing_value; VStr value]) result_dict
      end
  | None => dict_set key (VStr value) result_dict
  end.

Definition _params_to_dict (params : option (list (string * string)))
    (strategy : string) : Dict :=
  let result_dict := [("strategy", VStr strategy)] in
  match params with
  | None => result_dict
  | Some params => fold_left add_param params result_dict
  end.

End UnstructuredParser.

(** The values given for [key], in order: the strategy first when the key is
    ["strategy"], then the values of the parameters of that name *)
Definition values_for (key : string) (params : list (string * string))
    (strategy : string) : list string :=
  (if String.eqb key "strategy" then [strategy] else [])
  ++ (List.filter (λ item : string * string, String.eqb item.1 key) params).*2.

(** How [_params_to_dict] stores the values of one key: nothing, the value
    itself, or the list of the values *)
Definition stored (values : list string) : option Value :=
  match values with
  | [] => None
  | [v] => Some (VStr v)
  | _ => Some (VList (VStr <$> values))
  end.

(** ** [single_partition_router.SinglePartitionRouter] *)

Module SinglePartitionRouter.

Definition get_request_params (stream_state : option Dict)
    (stream_slice : option StreamSlice) (next_page_token : option Dict)
  : Dict := [].

Definition get_request_headers (stream_state : option Dict)
    (stream_slice : option StreamSlice) (next_page_token : option Dict)
  : Dict := [].

Definition get_request_body_data (stream_state : option Dict)
    (stream_slice : option StreamSlice) (next_page_token : option Dict)
  : Dict := [].

Definition get_request_body_json (stream_state : option Dict)
    (stream_slice : option StreamSlice) (next_page_token : option Dict)
  : Dict := [].

(** The generator's items, or the exception of the constructor *)
Definition stream_slices : Result (list StreamSlice) :=
  s ← StreamSlice.__init__ (MDict []) (MDict []) None; Ok [s].

Definition get_stream_state : option Dict := None.

End SinglePartitionRouter.

(* ===================================================================== *)
(** * Part II: lemmas and theorems                                        *)
(* ===================================================================== *)

(** ** Blocks and replacement *)

Section SeqFacts.
Context {A : Type} `{EqDecision A}.
Implicit Types s t u new : list A.

Lemma startswith_prefix t s : startswith t s = true ↔ ∃ k, s = t ++ k.
Proof.
  revert s. induction t as [|x t IH]; intros s; simpl.
  - split; [eauto|done].
  - destruct s as [|y s].
    + split; [done|]. intros [k Hk]. discriminate.
    + rewrite andb_true_iff, bool_decide_eq_true, IH. split.
      * intros [-> [k ->]]. eauto.
      * intros [k Hk]. simplify_eq. eauto.
Qed.

Lemma startswith_occurs t s : startswith t s = true → occurs t s.
Proof. intros [k ->]%startswith_prefix. by exists [], k. Qed.

Lemma occurs_cons t c s : occurs t s → occurs t (c :: s).
Proof. intros (pre & post & ->). by exists (c :: pre), post. Qed.

Lemma occurs_cons_inv t c s :
  occurs t (c :: s) → startswith t (c :: s) = true ∨ occurs t s.
Proof.
  intros (pre & post & Hs). destruct pre as [|p pre]; simpl in Hs.
  - left. apply startswith_prefix. eauto.
  - right. simplify_eq. by exists pre, post.
Qed.

Lemma contains_occurs t s : contains t s = true ↔ occurs t s.
Proof.
  induction s as [|c s IH]; simpl.
  - rewrite orb_false_r. split; [apply startswith_occurs|].
    intros (pre & post & Hs). symmetry in Hs.
    apply app_eq_nil in Hs as [-> Hs]. by apply app_eq_nil in Hs as [-> ->].
  - rewrite orb_true_iff, IH. split.
    + intros [?|?]; [by apply startswith_occurs|by apply occurs_cons].
    + apply occurs_cons_inv.
Qed.

Lemma not_contains_occurs t s : contains t s = false ↔ ¬ occurs t s.
Proof. rewrite <- contains_occurs. by destruct (contains t s). Qed.

Lemma occurs_drop t n s : occurs t (drop n s) → occurs t s.
Proof.
  intros (pre & post & Hs). exists (take n s ++ pre), post.
  rewrite <- (take_drop n s) at 1. rewrite Hs. by rewrite <- app_assoc.
Qed.

Lemma occurs_elem_of t s x : occurs t s → x ∈ t → x ∈ s.
Proof. intros (pre & post & ->) Hx. set_solver. Qed.

Lemma occurs_nil s : occurs [] s.
Proof. by exists [], s. Qed.

(** a block found in [a ++ b] lies in [b] or begins inside [a] *)
Lemma occurs_app_inv t a b :
  t ≠ [] → occurs t (a ++ b) → (∃ x, x ∈ a ∧ x ∈ t) ∨ occurs t b.
Proof.
  intros Ht. induction a as [|x a IH]; simpl; [by right|].
  intros [Hst|Hocc]%occurs_cons_inv.
  - left. destruct t as [|y t]; [done|]. simpl in Hst.
    apply andb_true_iff in Hst as [->%bool_decide_eq_true _].
    exists x. split; constructor.
  - destruct (IH Hocc) as [(y & ? & ?)|?]; [left|by right].
    exists y. split; [by constructor|done].
Qed.

(** replacing a block that does not occur changes nothing *)
Lemma replace_ne_absent o old' new s :
  ¬ occurs (o :: old') s → replace_ne o old' new s = s.
Proof.
  funelim (replace_ne o old' new s); intros Hno; [done| |].
  - exfalso. by apply Hno, startswith_occurs.
  - f_equal. apply H. intros Hocc. by apply Hno, occurs_cons.
Qed.

(** a block without elements of [new] that begins the output begins the
    input too *)
Lemma startswith_replace_ne o old' new u s :
  new ≠ [] → (∀ x, x ∈ new → x ∉ u) →
  startswith u (replace_ne o old' new s) = true → startswith u s = true.
Proof.
  intros Hnew. revert u.
  funelim (replace_ne o old' new s); intros u Hu Hst; [done| |].
  - destruct new as [|n new]; [done|]. destruct u as [|y u]; [done|].
    simpl in Hst. apply andb_true_iff in Hst as [->%bool_decide_eq_true _].
    exfalso. apply (Hu n); constructor.
  - destruct u as [|y u]; [done|]. simpl in Hst |- *.
    apply andb_true_iff in Hst as [Hy Hst]. rewrite Hy. simpl.
    apply H; [done| |done]. intros x Hx Hxu. apply (Hu x Hx). by constructor.
Qed.

(** a replacement does not create a block that has no element of [new] *)
Lemma replace_ne_preserves_absent o old' new t s :
  new ≠ [] → (∀ x, x ∈ new → x ∉ t) →
  ¬ occurs t s → ¬ occurs t (replace_ne o old' new s).
Proof.
  intros Hnew Ht.
  funelim (replace_ne o old' new s); intros Hno Hocc; [done| |].
  - assert (t ≠ []) as Hne.
    { intros ->. apply Hno, occurs_nil. }
    apply occurs_app_inv in Hocc as [(x & Hx & Hxt)|Hocc]; [| |done].
    + exact (Ht x Hx Hxt).
    + revert Hocc. apply H; [done..|]. intros Hd. apply Hno.
      by apply occurs_cons, occurs_drop with (n := length old').
  - apply occurs_cons_inv in Hocc as [Hst|Hocc].
    + apply Hno, startswith_occurs.
      destruct t as [|y t]; [done|]. simpl in Hst |- *.
      apply andb_true_iff in Hst as [Hy Hst]. rewrite Hy. simpl.
      erewrite startswith_replace_ne; [done|done| |done].
      intros x Hx Hxt. apply (Ht x Hx). by constructor.
    + revert Hocc. apply H; [done..|]. intros Hd. by apply Hno, occurs_cons.
Qed.

(** a replaced block that has no element of [new] is gone *)
Lemma replace_ne_removes o old' new s :
  new ≠ [] → (∀ x, x ∈ new → x ∉ o :: old') →
  ¬ occurs (o :: old') (replace_ne o old' new s).
Proof.
  intros Hnew Hold.
  funelim (replace_ne o old' new s); intros Hocc.
  - destruct Hocc as (pre & post & Hocc). by destruct pre.
  - apply occurs_app_inv in Hocc as [(x & Hx & Hxt)|Hocc]; [|by apply H|done].
    exact (Hold x Hx Hxt).
  - apply occurs_cons_inv in Hocc as [Hst|Hocc]; [|by apply H].
    simpl in Hst. apply andb_true_iff in Hst as [Hy Hst].
    apply startswith_replace_ne in Hst; [|done|].
    + simpl in Heq. rewrite Hy, Hst in Heq. done.
    + intros x Hx Hxt. apply (Hold x Hx). by constructor.
Qed.
End SeqFacts.

(** ** Strings *)

Lemma chars_text l : chars (text l) = l.
Proof. apply list_ascii_of_string_of_list_ascii. Qed.

Lemma text_chars s : text (chars s) = s.
Proof. apply string_of_list_ascii_of_string. Qed.

Lemma chars_nil s : chars s = [] → s = "".
Proof. by destruct s. Qed.

Lemma eqb_empty_false s : String.eqb s "" = false ↔ s ≠ "".
Proof. apply String.eqb_neq. Qed.

Lemma str_in_empty s : str_in "" s = true.
Proof. apply contains_occurs, occurs_nil. Qed.

(** ["*" not in t]: no character of the mask is in [t] *)
Lemma star_free_chars t x :
  str_in "*" t = false → x ∈ chars MASK → x ∉ chars t.
Proof.
  intros Ht Hx Hxt. apply not_contains_occurs in Ht. apply Ht.
  assert (x = "*"%char) as ->.
  { simpl in Hx. rewrite !elem_of_cons, elem_of_nil in Hx.
    by destruct Hx as [?|[?|[?|[?|[]]]]]. }
  apply list_elem_of_split in Hxt as (pre & post & ->). by exists pre, post.
Qed.

Lemma str_replace_absent s secret new :
  secret ≠ "" → str_in secret s = false → str_replace s secret new = s.
Proof.
  intros Hne Hno. unfold str_replace, str_in in *.
  destruct (chars secret) as [|o old'] eqn:Hc; [by apply chars_nil in Hc|].
  simpl. rewrite replace_ne_absent; [apply text_chars|].
  by apply not_contains_occurs.
Qed.

Lemma str_replace_preserves_absent s secret t :
  secret ≠ "" → str_in "*" t = false →
  str_in t s = false → str_in t (str_replace s secret MASK) = false.
Proof.
  intros Hne Ht Hno. unfold str_replace, str_in in *.
  destruct (chars secret) as [|o old'] eqn:Hc; [by apply chars_nil in Hc|].
  simpl replace. rewrite chars_text. apply not_contains_occurs.
  apply replace_ne_preserves_absent; [done| |by apply not_contains_occurs].
  intros x. by apply star_free_chars.
Qed.

Lemma str_replace_removes s secret :
  secret ≠ "" → str_in "*" secret = false →
  str_in secret (str_replace s secret MASK) = false.
Proof.
  intros Hne Ht. unfold str_replace, str_in in *.
  destruct (chars secret) as [|o old'] eqn:Hc; [by apply chars_nil in Hc|].
  simpl replace. rewrite chars_text. apply not_contains_occurs.
  apply replace_ne_removes; [done|]. intros x Hx. rewrite <- Hc.
  apply star_free_chars; [|done]. unfold str_in. by rewrite Hc.
Qed.

(** ** Secret masking ([filter_secrets]) *)

Lemma filter_secrets_absent registry s :
  (∀ secret, secret ∈ registry → secret ≠ "" → str_in secret s = false) →
  filter_secrets registry s = s.
Proof.
  revert s. induction registry as [|secret rest IH]; intros s Hno; [done|].
  simpl. destruct (String.eqb secret "") eqn:He; simpl.
  - apply IH. intros t Ht. apply Hno. by right.
  - apply eqb_empty_false in He.
    rewrite str_replace_absent; [|done|apply Hno; [by left|done]].
    apply IH. intros t Ht. apply Hno. by right.
Qed.

(** A non-empty secret without ["*"] that is absent from the input, or that
    is registered, is absent from the output, whatever else is registered. *)
Lemma filter_secrets_clean registry s t :
  t ≠ "" → str_in "*" t = false →
  str_in t s = false ∨ t ∈ registry →
  str_in t (filter_secrets registry s) = false.
Proof.
  intros Hne Hstar. revert s.
  induction registry as [|secret rest IH]; intros s Hin; simpl.
  - destruct Hin as [?|Hin]; [done|]. by apply elem_of_nil in Hin.
  - apply IH. destruct (String.eqb secret "") eqn:He; simpl.
    + destruct Hin as [?|[->|?]%elem_of_cons]; [by left| |by right].
      by apply String.eqb_eq in He.
    + apply eqb_empty_false in He.
      destruct Hin as [?|[->|?]%elem_of_cons]; [left|left|by right].
      * by apply str_replace_preserves_absent.
      * by apply str_replace_removes.
Qed.

Lemma chars_mask_tokens n x : x ∈ chars (mask_tokens n) → x = "*"%char.
Proof.
  induction n as [|n IH]; simpl; [by intros ?%elem_of_nil|].
  rewrite !elem_of_cons. intros [?|[?|[?|[?|?]]]]; auto.
Qed.

Lemma mask_tokens_clean n t :
  t ≠ "" → str_in "*" t = false → str_in t (mask_tokens n) = false.
Proof.
  intros Hne Hstar. apply not_contains_occurs. intros Hocc.
  destruct (chars t) as [|c l] eqn:Hc; [by apply chars_nil in Hc|].
  assert (c = "*"%char) as ->.
  { apply (chars_mask_tokens n), (occurs_elem_of _ _ _ Hocc). by left. }
  apply (star_free_chars t "*"%char Hstar); [by left|]. rewrite Hc. by left.
Qed.

(** C3, as amended: masking is a no-op on a string that contains no
    non-empty registered secret; and when no registered secret contains the
    character ["*"], masking is idempotent and leaves a string of mask tokens
    unchanged. *)
Theorem filter_secrets_noop_and_idempotent (registry : SecretRegistry) (s : string) :
  ((∀ secret, secret ∈ registry → secret ≠ "" → str_in secret s = false) →
   filter_secrets registry s = s)
  ∧ ((∀ secret, secret ∈ registry → str_in "*" secret = false) →
     filter_secrets registry (filter_secrets registry s)
     = filter_secrets registry s
     ∧ ∀ n, filter_secrets registry (mask_tokens n) = mask_tokens n).
Proof.
  split; [apply filter_secrets_absent|]. intros Hstar. split.
  - apply filter_secrets_absent. intros secret Hin Hne.
    apply filter_secrets_clean; auto.
  - intros n. apply filter_secrets_absent. intros secret Hin Hne.
    apply mask_tokens_clean; auto.
Qed.

Lemma filter_secrets_noop_and_idempotent_witness :
  filter_secrets ["teo"; ""] "greta john" = "greta john"
  ∧ filter_secrets ["teo"; ""] (filter_secrets ["teo"; ""] "teo, john")
    = filter_secrets ["teo"; ""] "teo, john"
  ∧ filter_secrets ["teo"; ""] (mask_tokens 2) = mask_tokens 2.
Proof.
  assert (∀ secret, secret ∈ ["teo"; ""] → str_in "*" secret = false) as Hstar.
  { intros secret Hin. rewrite !elem_of_cons, elem_of_nil in Hin.
    destruct Hin as [->|[->|[]]]; reflexivity. }
  destruct (filter_secrets_noop_and_idempotent ["teo"; ""] "greta john")
    as [Hnoop _].
  destruct (filter_secrets_noop_and_idempotent ["teo"; ""] "teo, john")
    as [_ Hidem].
  destruct (Hidem Hstar) as [Htwice Hmask].
  split; [|split].
  - apply Hnoop. intros secret Hin Hne.
    rewrite !elem_of_cons, elem_of_nil in Hin.
    destruct Hin as [->|[->|[]]]; [reflexivity|].
    exfalso. exact (Hne eq_refl).
  - exact Htwice.
  - exact (Hmask 2%nat).
Defined.

(** C3, as stated, fails: a registered secret made of the mask's character
    changes a string of mask tokens; with a secret that ends in ["*"] a second
    pass changes the output of the first; and the output depends on the order
    of the registered secrets ([filter_secrets] documents this on the input
    ["xk"]). *)
Lemma filter_secrets_counterexample :
  filter_secrets ["*"] (mask_tokens 1) ≠ mask_tokens 1
  ∧ filter_secrets ["a*"] (filter_secrets ["a*"] "aa*")
    ≠ filter_secrets ["a*"] "aa*"
  ∧ filter_secrets ["x"; "xk"] "xk" ≠ filter_secrets ["xk"; "x"] "xk".
Proof. by vm_compute. Qed.

(** The outputs at the inputs above *)
Example filter_secrets_order :
  filter_secrets ["x"; "xk"] "xk" = "****k"
  ∧ filter_secrets ["xk"; "x"] "xk" = "****".
Proof. by vm_compute. Qed.


(** ** Boolean interpolation *)

Lemma float_eq_int_zero f : float_eq_int f 0 = true ↔ ∃ s, f = S754_zero s.
Proof.
  destruct f as [s| | |s m e]; unfold float_eq_int;
    try (split; [done|by intros [??]]).
  - split; [eauto|done].
  - split; [|by intros [??]]. destruct (0 <=? e) eqn:Hle.
    + apply Z.leb_le in Hle. intros Heq%Z.eqb_eq. exfalso.
      pose proof (Z.pow_pos_nonneg 2 e). destruct s; nia.
    + intros Heq%Z.eqb_eq. destruct s; lia.
Qed.

Lemma py_in_FALSE_VALUES v : py_in v FALSE_VALUES = true ↔ false_like v.
Proof.
  destruct v as [|b|z|f|s|l|l|d|l]; unfold py_in, FALSE_VALUES; simpl;
    rewrite ?orb_false_r, ?orb_false_l.
  - split; [done|inversion 1].
  - rewrite Z.eqb_eq. split.
    + destruct b; [done|constructor].
    + by inversion 1.
  - rewrite Z.eqb_eq. split; [intros ->; constructor|by inversion 1].
  - rewrite float_eq_int_zero. split; [intros [s ->]; constructor|].
    inversion 1; eauto.
  - rewrite !orb_true_iff, !String.eqb_eq. split.
    + intros Hs. constructor. rewrite !elem_of_cons. tauto.
    + inversion 1 as [s' Hs| | | | | | |]; subst.
      rewrite !elem_of_cons, elem_of_nil in Hs. tauto.
  - split; [destruct l; [constructor|done]|by inversion 1].
  - split; [destruct l; [constructor|done]|by inversion 1].
  - split; [destruct d; [constructor|done]|by inversion 1].
  - split; [destruct l; [constructor|done]|by inversion 1].
Qed.

Lemma InterpolatedBoolean_eval_unfold `{Interpolation} c parameters config kwargs :
  InterpolatedBoolean.eval
    (InterpolatedBoolean.__post_init__ (InterpolatedBoolean.CStr c) parameters)
    config kwargs
  = negb (py_in (jinja_eval c config "False" parameters kwargs) FALSE_VALUES).
Proof.
  unfold InterpolatedBoolean.eval, InterpolatedBoolean.__post_init__.
  cbn [InterpolatedBoolean.condition InterpolatedBoolean._default
       InterpolatedBoolean._parameters].
  by destruct (py_in _ _).
Qed.

(** C4, as amended: a template evaluates to false exactly when its result
    equals a member of [FALSE_VALUES], that is one of the spellings ["False"],
    ["false"], ["{}"], ["[]"], ["()"], [""], ["0"], ["0.0"], an empty dict,
    list, tuple or set, or a number equal to zero ([False], [0], [0.0]); every
    other result, [None] included, evaluates to true. *)
Theorem InterpolatedBoolean_eval_false_iff `{Interpolation}
    (c : string) (parameters config : Dict) (kwargs : Kwargs) :
  let self :=
    InterpolatedBoolean.__post_init__ (InterpolatedBoolean.CStr c) parameters in
  let evaluated := jinja_eval c config "False" parameters kwargs in
  (InterpolatedBoolean.eval self config kwargs = false ↔ false_like evaluated)
  ∧ (InterpolatedBoolean.eval self config kwargs = true ↔ ¬ false_like evaluated)
  ∧ (evaluated = VNone → InterpolatedBoolean.eval self config kwargs = true).
Proof.
  intros self evaluated. unfold self.
  rewrite InterpolatedBoolean_eval_unfold. fold evaluated.
  rewrite <- py_in_FALSE_VALUES.
  destruct (py_in evaluated FALSE_VALUES) eqn:Hin; simpl.
  - split; [done|]. split; [split; [done|by intros []]|].
    intros Hnone. by rewrite Hnone in Hin.
  - split; [done|]. split; [split; [by intros _ ?|done]|done].
Qed.

(** C4, as stated, fails: a template that resolves to [None] evaluates to
    true, and one that resolves to the integer [0], which is not among the
    listed spellings, evaluates to false. *)
Lemma InterpolatedBoolean_eval_counterexample :
  let eval := InterpolatedBoolean.eval (H := manifest_interpolation) in
  (jinja_eval (Interpolation := manifest_interpolation)
     "{{ response._metadata.last }}" [] "False" [] (last_context VNone) = VNone
   ∧ eval last_condition [] (last_context VNone) = true)
  ∧ (jinja_eval (Interpolation := manifest_interpolation)
       "{{ response._metadata.last }}" [] "False" [] (last_context (VInt 0))
     = VInt 0
     ∧ eval last_condition [] (last_context (VInt 0)) = false).
Proof. by vm_compute. Qed.


(** ** StreamSlice and Record *)

Scheme Mapping_mut_ind := Induction for Mapping Sort Prop
  with StreamSlice_mut_ind := Induction for StreamSlice Sort Prop.

Lemma keys_intersection_share a b : keys_intersection a b ≠ [] ↔ share_a_key a b.
Proof.
  unfold keys_intersection, share_a_key. split.
  - destruct (filter _ _) as [|k l] eqn:Hf; [done|]. intros _. exists k.
    assert (k ∈ filter (λ k, k ∈ dict_keys (mapping_dict b))
                  (dict_keys (mapping_dict a))) as Hk
      by (rewrite Hf; left).
    apply list_elem_of_filter in Hk. tauto.
  - intros (k & Ha & Hb) Hnil.
    by apply (filter_nil_not_elem_of _ _ k Hnil).
Qed.

Lemma StreamSlice_init_overlap partition cursor_slice extra_fields :
  share_a_key partition cursor_slice →
  ∃ msg, StreamSlice.__init__ partition cursor_slice extra_fields
         = Raise (ValueError msg).
Proof.
  intros Hshare%keys_intersection_share. unfold StreamSlice.__init__.
  destruct (keys_intersection partition cursor_slice); [done|]. simpl. eauto.
Qed.

Lemma StreamSlice_init_Ok partition cursor_slice extra_fields a :
  StreamSlice.__init__ partition cursor_slice extra_fields = Ok a →
  _partition a = partition ∧ _cursor_slice a = cursor_slice
  ∧ ¬ share_a_key partition cursor_slice.
Proof.
  unfold StreamSlice.__init__. intros Hinit.
  rewrite <- keys_intersection_share.
  destruct (keys_intersection partition cursor_slice); simpl in Hinit; [|done].
  injection Hinit as <-. by split_and!; [..|intros ?].
Qed.

(** C5: constructing a StreamSlice whose partition and cursor_slice share a
    key fails with an error; and two StreamSlices are equal if and only if
    their partition mappings are equal and their cursor_slice mappings are
    equal, whatever their extra_fields.  For a slice made of plain mappings
    the accessors return these very mappings. *)
Theorem StreamSlice_init_and_eq :
  (∀ partition cursor_slice extra_fields,
     share_a_key partition cursor_slice →
     ∃ msg, StreamSlice.__init__ partition cursor_slice extra_fields
            = Raise (ValueError msg))
  ∧ (∀ p c e p' c' e' a b,
       StreamSlice.__init__ p c e = Ok a →
       StreamSlice.__init__ p' c' e' = Ok b →
       (StreamSlice.__eq__ a (OSlice b) = true
        ↔ mapping_eq p p' = true ∧ mapping_eq c c' = true)
       ∧ py_equals (OSlice a) (OSlice b) = StreamSlice.__eq__ a (OSlice b))
  ∧ (∀ p c e a,
       StreamSlice.__init__ (MDict p) (MDict c) e = Ok a →
       StreamSlice.partition 1 a = Some (MDict p)
       ∧ StreamSlice.cursor_slice 1 a = Some (MDict c)).
Proof.
  split_and!.
  - apply StreamSlice_init_overlap.
  - intros p c e p' c' e' a b (Hp & Hc & _)%StreamSlice_init_Ok
      (Hp' & Hc' & _)%StreamSlice_init_Ok.
    split; [|done]. unfold StreamSlice.__eq__.
    rewrite Hp, Hc, Hp', Hc'. apply andb_true_iff.
  - intros p c e a (Hp & Hc & _)%StreamSlice_init_Ok. simpl.
    by rewrite Hp, Hc.
Qed.

Lemma StreamSlice_init_and_eq_witness :
  (∃ msg, StreamSlice.__init__ (MDict [("k", VInt 1)])
            (MDict [("c", VInt 2); ("k", VInt 3)]) None = Raise (ValueError msg))
  ∧ (StreamSlice.__eq__ (list_partition "0")
       (OSlice (mkStreamSlice (MDict [("item_id", VStr "0")]) (MDict [])
                  (MDict [("note", VInt 7)]) [("item_id", VStr "0")])) = true
     ↔ mapping_eq (MDict [("item_id", VStr "0")]) (MDict [("item_id", VStr "0")])
       = true
       ∧ mapping_eq (MDict []) (MDict []) = true).
Proof.
  destruct StreamSlice_init_and_eq as (Hfail & Heq & _). split.
  - apply Hfail. exists "k". split; vm_compute; apply list_elem_of_In; simpl; tauto.
  - apply (Heq _ _ None _ _ (Some (MDict [("note", VInt 7)]))); reflexivity.
Defined.

Lemma while_StreamSlice_plain get n d :
  StreamSlice.while_StreamSlice get n (MDict d) = Some (MDict d).
Proof. by destruct n. Qed.

Lemma partition_enough_fuel fuel s :
  (partition_depth (_partition s) < fuel)%nat →
  StreamSlice.partition fuel s = Some (MDict (innermost_partition s)).
Proof.
  revert s. induction fuel as [|fuel IH]; intros s Hlt; [lia|].
  destruct s as [p c e ss]. unfold innermost_partition. simpl in *.
  destruct p as [d|[p' c' e' ss']]; [apply while_StreamSlice_plain|].
  simpl in Hlt. destruct fuel as [|n]; [lia|].
  cbn [StreamSlice.while_StreamSlice]. rewrite IH by (simpl; lia).
  apply while_StreamSlice_plain.
Qed.

Lemma cursor_slice_enough_fuel fuel s :
  (cursor_slice_depth (_cursor_slice s) < fuel)%nat →
  StreamSlice.cursor_slice fuel s = Some (MDict (innermost_cursor_slice s)).
Proof.
  revert s. induction fuel as [|fuel IH]; intros s Hlt; [lia|].
  destruct s as [p c e ss]. unfold innermost_cursor_slice. simpl in *.
  destruct c as [d|[p' c' e' ss']]; [apply while_StreamSlice_plain|].
  simpl in Hlt. destruct fuel as [|n]; [lia|].
  cbn [StreamSlice.while_StreamSlice]. rewrite IH by (simpl; lia).
  apply while_StreamSlice_plain.
Qed.

(** Whatever the fuel, the accessors return nothing else *)
Lemma partition_returns fuel s r :
  StreamSlice.partition fuel s = Some r → r = MDict (innermost_partition s).
Proof.
  revert s r. induction fuel as [|fuel IH]; intros s r; [done|].
  destruct s as [p c e ss]. unfold innermost_partition. simpl.
  destruct p as [d|[p' c' e' ss']].
  - rewrite while_StreamSlice_plain. by intros [= <-].
  - destruct fuel as [|n]; [done|]. cbn [StreamSlice.while_StreamSlice].
    destruct (StreamSlice.partition (S n) _) as [r'|] eqn:Hr; [|done].
    apply IH in Hr as ->. simpl. rewrite while_StreamSlice_plain.
    by intros [= <-].
Qed.

Lemma cursor_slice_returns fuel s r :
  StreamSlice.cursor_slice fuel s = Some r →
  r = MDict (innermost_cursor_slice s).
Proof.
  revert s r. induction fuel as [|fuel IH]; intros s r; [done|].
  destruct s as [p c e ss]. unfold innermost_cursor_slice. simpl.
  destruct c as [d|[p' c' e' ss']].
  - rewrite while_StreamSlice_plain. by intros [= <-].
  - destruct fuel as [|n]; [done|]. cbn [StreamSlice.while_StreamSlice].
    destruct (StreamSlice.cursor_slice (S n) _) as [r'|] eqn:Hr; [|done].
    apply IH in Hr as ->. simpl. rewrite while_StreamSlice_plain.
    by intros [= <-].
Qed.

(** Equal mappings that are nested alike have equal innermost mappings *)
Lemma mapping_eq_unwrap m1 :
  ∀ m2, same_shape m1 m2 = true → mapping_eq m1 m2 = true →
  py_eq (VDict (unwrap_partition m1)) (VDict (unwrap_partition m2)) = true
  ∧ py_eq (VDict (unwrap_cursor_slice m1)) (VDict (unwrap_cursor_slice m2))
    = true.
Proof.
  induction m1 as [d1|s1 IHs|p1 IHp c1 IHc e1 ss1]
    using Mapping_mut_ind
    with (P0 := λ s1, ∀ s2, same_shape (MSlice s1) (MSlice s2) = true →
                      mapping_eq (MSlice s1) (MSlice s2) = true →
      py_eq (VDict (unwrap_partition (MSlice s1)))
            (VDict (unwrap_partition (MSlice s2))) = true
      ∧ py_eq (VDict (unwrap_cursor_slice (MSlice s1)))
              (VDict (unwrap_cursor_slice (MSlice s2))) = true).
  - intros [d2|s2]; [|done]. cbn [mapping_eq unwrap_partition
      unwrap_cursor_slice]. tauto.
  - intros [d2|s2]; [by destruct s1|]. apply IHs.
  - intros [p2 c2 e2 ss2] Hshape Heq. simpl in Hshape.
    apply andb_true_iff in Hshape as [Hp Hc].
    cbn [mapping_eq slice_eq _partition _cursor_slice] in Heq.
    apply andb_true_iff in Heq as [Heqp Heqc].
    cbn [unwrap_partition unwrap_cursor_slice].
    split; [by apply IHp|by apply IHc].
Qed.

(** C8, as amended: for a StreamSlice nested to any depth the partition
    (respectively cursor_slice) accessor returns the innermost plain mapping;
    equality of two slices compares the stored constituents, a nested slice by
    both of its own constituents, so two equal slices that are nested alike
    have equal innermost mappings. *)
Theorem StreamSlice_nested :
  (∀ s fuel,
     (partition_depth (_partition s) < fuel)%nat →
     StreamSlice.partition fuel s = Some (MDict (innermost_partition s)))
  ∧ (∀ s fuel,
       (cursor_slice_depth (_cursor_slice s) < fuel)%nat →
       StreamSlice.cursor_slice fuel s = Some (MDict (innermost_cursor_slice s)))
  ∧ (∀ s fuel r,
       StreamSlice.partition fuel s = Some r ∨
       StreamSlice.cursor_slice fuel s = Some r →
       ∃ d, r = MDict d)
  ∧ (∀ a b,
       same_shape (MSlice a) (MSlice b) = true →
       StreamSlice.__eq__ a (OSlice b) = true →
       py_eq (VDict (innermost_partition a)) (VDict (innermost_partition b))
       = true
       ∧ py_eq (VDict (innermost_cursor_slice a))
               (VDict (innermost_cursor_slice b)) = true).
Proof.
  split_and!.
  - intros s fuel. apply partition_enough_fuel.
  - intros s fuel. apply cursor_slice_enough_fuel.
  - intros s fuel r [->%partition_returns| ->%cursor_slice_returns]; eauto.
  - intros a b Hshape Heq.
    destruct (mapping_eq_unwrap (MSlice a) (MSlice b) Hshape) as [Hp Hc].
    + by destruct a, b.
    + by destruct a, b.
Qed.

Lemma StreamSlice_nested_witness :
  StreamSlice.partition 2 (outer inner_9)
  = Some (MDict (innermost_partition (outer inner_9)))
  ∧ StreamSlice.cursor_slice 1 (outer inner_9)
    = Some (MDict (innermost_cursor_slice (outer inner_9)))
  ∧ py_eq (VDict (innermost_partition (outer inner_9)))
          (VDict (innermost_partition (outer inner_9))) = true.
Proof.
  destruct StreamSlice_nested as (Hp & Hc & _ & Heq). split_and!.
  - apply Hp. vm_compute. lia.
  - apply Hc. vm_compute. lia.
  - apply Heq; reflexivity.
Defined.

(** C8, as stated, fails: [outer inner_9] and [outer inner_8] are well
    formed, nested alike, and have the same innermost partition and the same
    innermost cursor_slice, yet they are not equal, because the inner slices
    differ in their cursor_slice; and [outer inner_9] equals the plain slice
    [flat_9], whose partition is another mapping. *)
Lemma StreamSlice_nested_counterexample :
  (StreamSlice.__init__ (MSlice inner_9) (MDict [("c", VInt 2)]) None
   = Ok (outer inner_9)
   ∧ StreamSlice.__init__ (MSlice inner_8) (MDict [("c", VInt 2)]) None
     = Ok (outer inner_8))
  ∧ (StreamSlice.partition 2 (outer inner_9)
     = StreamSlice.partition 2 (outer inner_8)
     ∧ StreamSlice.partition 2 (outer inner_9) = Some (MDict [("p", VInt 1)]))
  ∧ (StreamSlice.cursor_slice 2 (outer inner_9)
     = StreamSlice.cursor_slice 2 (outer inner_8)
     ∧ StreamSlice.cursor_slice 2 (outer inner_9) = Some (MDict [("c", VInt 2)]))
  ∧ StreamSlice.__eq__ (outer inner_9) (OSlice (outer inner_8)) = false
  ∧ (StreamSlice.__eq__ (outer inner_9) (OSlice flat_9) = true
     ∧ StreamSlice.partition 2 flat_9
       = Some (MDict [("p", VInt 1); ("x", VInt 9)])).
Proof. by vm_compute. Qed.

(** C10: a Record equals another object exactly when that object is a Record
    whose data mapping equals its own, whatever the associated slices; it
    equals no other object, in particular no plain mapping with the same
    entries, on either side of [==]. *)
Theorem Record_eq_iff (r : Record_) (other : PyObj) :
  (Record_.__eq__ r other = true
   ↔ ∃ o, other = ORecord o ∧ mapping_eq (_data r) (_data o) = true)
  ∧ py_equals (ORecord r) other = Record_.__eq__ r other
  ∧ (py_equals other (ORecord r) = true → ∃ o, other = ORecord o)
  ∧ (∀ data slice slice',
       Record_.__eq__ (Record_.__init__ data slice)
         (ORecord (Record_.__init__ (_data r) slice'))
       = mapping_eq data (_data r))
  ∧ Record_.__eq__ r (OValue (VDict (mapping_dict (_data r)))) = false.
Proof.
  split_and!.
  - destruct other as [v|s|o]; simpl.
    + split; [done|]. by intros (o & ? & _).
    + split; [done|]. by intros (o & ? & _).
    + split; [eauto|]. by intros (o' & [= <-] & ?).
  - done.
  - destruct other as [v|s|o]; simpl; [done| |eauto].
    unfold StreamSlice.__eq__. done.
  - done.
  - done.
Qed.

(** ** Counter pagination ([PageIncrement]) *)

Lemma PageIncrement_no_records self response last_record :
  PageIncrement.next_page_token self response 0 last_record = (self, None).
Proof.
  unfold PageIncrement.next_page_token. simpl. by rewrite orb_true_r.
Qed.

Lemma PageIncrement_no_page_size_step self response n last_record :
  PageIncrement._page_size self = None →
  PageIncrement.next_page_token self response n last_record
  = if n =? 0 then (self, None)
    else (PageIncrement.set_page self (PageIncrement._page self + 1),
          Some (PageIncrement._page self + 1)).
Proof.
  intros Hnone. unfold PageIncrement.next_page_token. rewrite Hnone. simpl.
  by destruct (n =? 0).
Qed.

Lemma PageIncrement_no_page_size_feed self response sizes :
  PageIncrement._page_size self = None →
  Forall (λ n, n ≠ 0) sizes →
  (PageIncrement.feed self response sizes).2
  = (λ i, Some (PageIncrement._page self + Z.of_nat i))
    <$> seq 1 (length sizes).
Proof.
  intros Hnone Hsizes. revert self Hnone.
  induction Hsizes as [|n sizes Hn _ IH]; intros self Hnone; [done|].
  cbn [PageIncrement.feed length seq fmap list_fmap].
  rewrite PageIncrement_no_page_size_step by done.
  apply Z.eqb_neq in Hn. rewrite Hn.
  specialize (IH (PageIncrement.set_page self (PageIncrement._page self + 1))
                Hnone).
  destruct (PageIncrement.feed _ response sizes) as [self' tokens].
  simpl in *. rewrite IH. f_equal.
  rewrite <- (fmap_S_seq 1), <- list_fmap_compose. apply list_fmap_ext.
  intros _ i _. simpl. f_equal. lia.
Qed.

Lemma PageIncrement_no_page_size_feed_None self response sizes :
  PageIncrement._page_size self = None →
  Forall2 (λ n token, token = None ↔ n = 0) sizes
    (PageIncrement.feed self response sizes).2.
Proof.
  revert self. induction sizes as [|n sizes IH]; intros self Hnone.
  - constructor.
  - cbn [PageIncrement.feed].
    rewrite PageIncrement_no_page_size_step by done.
    destruct (Z.eqb_spec n 0) as [->|Hn].
    + specialize (IH self Hnone).
      destruct (PageIncrement.feed self response sizes) as [self' tokens].
      by constructor.
    + specialize (IH (PageIncrement.set_page self
                        (PageIncrement._page self + 1)) Hnone).
      destruct (PageIncrement.feed _ response sizes) as [self' tokens].
      by constructor.
Qed.

(** C6: a PageIncrement strategy with page size 2, fed pages of 2, 2 and 1
    records, returns a token after the first and the second page and [None]
    after the third; and on a page without records it returns [None] at
    once, whatever its state. *)
Theorem PageIncrement_page_size_2 `{Interpolation}
    (config parameters : Dict) (start_from_page : Z)
    (inject_on_first_request : bool) (response : Response) :
  (∃ self,
     PageIncrement.__post_init__ config (PageIncrement.PSInt 2) parameters
       start_from_page inject_on_first_request = Ok self
     ∧ (PageIncrement.feed self response [2; 2; 1]).2
       = [Some (start_from_page + 1); Some (start_from_page + 2); None])
  ∧ (∀ self last_record,
       PageIncrement.next_page_token self response 0 last_record
       = (self, None)).
Proof.
  split; [|intros; apply PageIncrement_no_records].
  eexists. split; [done|]. simpl. do 3 f_equal. lia.
Qed.

(** C9: a PageIncrement strategy constructed with [page_size = None] returns
    the incremented page for every call whose page is not empty, however
    short the page is against the ones before, and returns [None] exactly
    when the page has no records. *)
Theorem PageIncrement_no_page_size `{Interpolation}
    (config parameters : Dict) (start_from_page : Z)
    (inject_on_first_request : bool) (response : Response) :
  ∃ self,
    PageIncrement.__post_init__ config PageIncrement.PSNone parameters
      start_from_page inject_on_first_request = Ok self
    ∧ PageIncrement._page self = start_from_page
    ∧ (∀ n last_record,
         (PageIncrement.next_page_token self response n last_record).2 = None
         ↔ n = 0)
    ∧ (∀ n last_record,
         n ≠ 0 →
         (PageIncrement.next_page_token self response n last_record).2
         = Some (start_from_page + 1))
    ∧ (∀ sizes,
         Forall (λ n, 0 < n) sizes →
         (PageIncrement.feed self response sizes).2
         = (λ i, Some (start_from_page + Z.of_nat i)) <$> seq 1 (length sizes))
    ∧ (∀ sizes,
         Forall2 (λ n token, token = None ↔ n = 0) sizes
           (PageIncrement.feed self response sizes).2).
Proof.
  eexists. split; [done|]. split; [done|]. split_and!.
  4: { intros sizes. by apply PageIncrement_no_page_size_feed_None. }
  - intros n last_record. rewrite PageIncrement_no_page_size_step by done.
    destruct (Z.eqb_spec n 0); simpl; split; done.
  - intros n last_record Hn. rewrite PageIncrement_no_page_size_step by done.
    apply Z.eqb_neq in Hn. by rewrite Hn.
  - intros sizes Hsizes. apply PageIncrement_no_page_size_feed; [done|].
    eapply Forall_impl; [done|]. simpl. lia.
Qed.

Lemma PageIncrement_no_page_size_witness :
  ∃ self,
    PageIncrement.__post_init__ (H := manifest_interpolation) []
      PageIncrement.PSNone [] 0 false = Ok self
    ∧ (PageIncrement.feed self (mock_response 0) [5; 3; 1]).2
      = [Some 1; Some 2; Some 3].
Proof.
  destruct (PageIncrement_no_page_size (H := manifest_interpolation) [] [] 0
              false (mock_response 0)) as (self & Hinit & _ & _ & _ & Hfeed & _).
  exists self. split; [exact Hinit|]. apply Hfeed.
  repeat constructor.
Defined.

(** ** Cursor pagination ([CursorPaginationStrategy]) *)

Lemma truthy_falsy v : truthy v = false ↔ falsy v.
Proof.
  split.
  - destruct v as [|[]|z|f|s|l|l|d|l]; simpl; try discriminate;
      try (intros _; constructor).
    + intros Hz%negb_false_iff%Z.eqb_eq. subst z. constructor.
    + destruct f; try discriminate. intros _. constructor.
    + intros Hs%negb_false_iff%String.eqb_eq. subst s. constructor.
    + destruct l; [constructor|discriminate].
    + destruct l; [constructor|discriminate].
    + destruct d; [constructor|discriminate].
    + destruct l; [constructor|discriminate].
  - by intros [].
Qed.

(** C7: when the configured stop condition evaluates to true,
    [next_page_token] returns [None] whatever the cursor expression evaluates
    to; when it is false or absent, the token is the evaluated cursor, and a
    falsy cursor ([None], [False], a zero, the empty string or an empty
    container) yields [None], any other cursor is the token. *)
Theorem CursorPagination_stop_condition_first `{Interpolation}
    (self : CursorPaginationStrategy.t) (response : Response)
    (last_page_size : Z) (last_record : option Record_)
    (decoded_response : Value) (rest : list Value) :
  CursorPaginationStrategy.decoder self response = decoded_response :: rest →
  let kwargs :=
    CursorPaginationStrategy.context decoded_response
      (dict_set "link" (VDict (links response)) (headers response))
      last_record last_page_size in
  let token :=
    interpolated_string_eval
      (is_string (CursorPaginationStrategy._cursor_value self))
      (is_parameters (CursorPaginationStrategy._cursor_value self))
      (CursorPaginationStrategy.config self) kwargs in
  let next :=
    CursorPaginationStrategy.next_page_token self response last_page_size
      last_record in
  (∀ stop_condition,
     CursorPaginationStrategy._stop_condition self = Some stop_condition →
     InterpolatedBoolean.eval stop_condition
       (CursorPaginationStrategy.config self) kwargs = true →
     next = Ok None)
  ∧ (CursorPaginationStrategy._stop_condition self = None
     ∨ (∃ stop_condition,
          CursorPaginationStrategy._stop_condition self = Some stop_condition
          ∧ InterpolatedBoolean.eval stop_condition
              (CursorPaginationStrategy.config self) kwargs = false) →
     next = Ok (if truthy token then Some token else None)
     ∧ (truthy token = false → next = Ok None)
     ∧ (falsy token → next = Ok None)
     ∧ (¬ falsy token → next = Ok (Some token))).
Proof.
  intros Hdecoded kwargs token next. subst next.
  unfold CursorPaginationStrategy.next_page_token. rewrite Hdecoded.
  cbn [mbind Result_bind]. fold kwargs. fold token. split.
  - intros stop_condition -> ->. done.
  - intros Hstop.
    assert ((if match CursorPaginationStrategy._stop_condition self with
                | Some stop_condition =>
                    InterpolatedBoolean.eval stop_condition
                      (CursorPaginationStrategy.config self) kwargs
                | None => false
                end
             then Ok None
             else Ok (if truthy token then Some token else None))
            = Ok (if truthy token then Some token else None)) as ->.
    { by destruct Hstop as [->|(stop_condition & -> & ->)]. }
    split_and!.
    + done.
    + by intros ->.
    + by intros ->%truthy_falsy.
    + intros Hfalsy. destruct (truthy token) eqn:Htruthy; [done|].
      by apply truthy_falsy in Htruthy.
Qed.

Lemma CursorPagination_stop_condition_first_witness :
  (interpolated_string_eval (Interpolation := manifest_interpolation)
     "{{ response._metadata.next }}" [] []
     (CursorPaginationStrategy.context last_page_body
        (dict_set "link" (VDict []) []) None 1) = VStr "next"
   ∧ CursorPaginationStrategy.next_page_token (H := manifest_interpolation)
       stopping_paginator (mock_response 1) 1 None = Ok None)
  ∧ (interpolated_string_eval (Interpolation := manifest_interpolation)
       "{{ response._metadata.next }}" [] []
       (CursorPaginationStrategy.context cursorless_page_body
          (dict_set "link" (VDict []) []) None 1) = VStr ""
     ∧ CursorPaginationStrategy.next_page_token (H := manifest_interpolation)
         cursorless_paginator (mock_response 1) 1 None = Ok None)
  ∧ CursorPaginationStrategy.next_page_token (H := manifest_interpolation)
      manifest_paginator (mock_response 1) 1 None = Ok (Some (VStr "next")).
Proof.
  split; [split; [reflexivity|]|split; [split; [reflexivity|]|]].
  - destruct (CursorPagination_stop_condition_first
                (H := manifest_interpolation) stopping_paginator
                (mock_response 1) 1 None last_page_body [] eq_refl)
      as [Hstop _].
    eapply Hstop; reflexivity.
  - destruct (CursorPagination_stop_condition_first
                (H := manifest_interpolation) cursorless_paginator
                (mock_response 1) 1 None cursorless_page_body [] eq_refl)
      as [_ Hcursor].
    destruct (Hcursor (or_introl eq_refl)) as (_ & _ & Hfalsy & _).
    apply Hfalsy. exact falsy_empty_str.
  - destruct (CursorPagination_stop_condition_first
                (H := manifest_interpolation) manifest_paginator
                (mock_response 1) 1 None second_page_body [] eq_refl)
      as [_ Hcursor].
    destruct (Hcursor (or_introl eq_refl)) as (_ & _ & _ & Htoken).
    apply Htoken. intros Hfalsy. inversion Hfalsy.
Defined.

(** ** The bounded test read *)

Section TestReadFacts.
Context {P W : Type} `{PaginationStrategy P}.
Variable limits : TestReadLimits.
Variable registry : SecretRegistry.
Variable format_exception : PyExc → string.
Variable pipeline : RetrievalPipeline W.

Lemma read_pages_length budget partition paginator token w count :
  (length (pr_pages (read_pages limits pipeline budget partition paginator
                       token w count)) ≤ budget)%nat.
Proof.
  revert paginator token w count.
  induction budget as [|budget IH]; intros paginator token w count; [done|].
  cbn [read_pages]. repeat case_match; simpl; try lia.
  match goal with |- (S (length (pr_pages ?r)) ≤ _)%nat =>
    match r with read_pages _ _ _ _ ?p ?t ?w' ?c =>
      specialize (IH p t w' c) end end.
  lia.
Qed.

(** Every slice of the walk stays under the page ceiling, no more slices
    come out than partitions go in, and every log entry is a redacted one. *)
Lemma read_slices_bounds partitions paginator w count :
  let walk :=
    read_slices limits registry format_exception pipeline partitions
      paginator w count in
  (length (w_slices walk) ≤ length partitions)%nat
  ∧ Forall (λ s, (length (pages s) ≤ max_pages_per_slice limits)%nat)
      (w_slices walk)
  ∧ Forall (λ l, ∃ e, l = error_log registry format_exception e)
      (w_logs walk).
Proof.
  revert paginator w count.
  induction partitions as [|partition partitions IH];
    intros paginator w count; cbn zeta.
  - simpl. by split_and!.
  - cbn [read_slices]. destruct (reset paginator) as [paginator'|e].
    + pose proof (read_pages_length (max_pages_per_slice limits) partition
                    paginator' (initial_token paginator') w count) as Hlen.
      destruct (pr_outcome _) as [| |e|e];
        try (destruct (IH (pr_paginator
                 (read_pages limits pipeline (max_pages_per_slice limits)
                    partition paginator' (initial_token paginator') w count))
               (pr_world
                 (read_pages limits pipeline (max_pages_per_slice limits)
                    partition paginator' (initial_token paginator') w count))
               (pr_count
                 (read_pages limits pipeline (max_pages_per_slice limits)
                    partition paginator' (initial_token paginator') w count)))
               as (IH1 & IH2 & IH3));
        simpl; split_and!; try lia; repeat constructor; eauto.
    + destruct (IH paginator w count) as (IH1 & IH2 & IH3).
      simpl; split_and!; try lia; repeat constructor; eauto.
      simpl. lia.
Qed.

Lemma read_stream_ceilings_general paginator w :
  let r := read_stream limits registry format_exception pipeline paginator w in
  (length (slices r) ≤ max_slices limits)%nat
  ∧ Forall (λ s, (length (pages s) ≤ max_pages_per_slice limits)%nat)
      (slices r).
Proof.
  cbn zeta. unfold read_stream, test_read. simpl.
  destruct (list_partitions pipeline w) as [partitions|e]; simpl.
  - destruct (read_slices_bounds (take (max_slices limits) partitions)
                paginator w 0%nat) as (Hlen & Hpages & _).
    split; [|done]. rewrite length_take in Hlen. lia.
  - split; [lia|constructor].
Qed.


End TestReadFacts.

Section CountedFacts.
Context {P W : Type} `{PaginationStrategy P}.
Variable limits : TestReadLimits.
Variable registry : SecretRegistry.
Variable format_exception : PyExc → string.
Variable pipeline : RetrievalPipeline W.

(** Every page fetched is a page of the report *)
Lemma read_pages_counted budget partition paginator token w count :
  let r := read_pages limits (counted pipeline) budget partition paginator
             token w count in
  (pr_world r).2 = (w.2 + length (pr_pages r))%nat.
Proof.
  revert paginator token w count.
  induction budget as [|budget IH]; intros paginator token w count; cbn zeta.
  - simpl. lia.
  - cbn [read_pages counted fetch_next_page].
    destruct (fetch_next_page pipeline partition token w.1) as [[page w']|e];
      cbn [mbind Result_bind]; [|simpl; lia].
    repeat case_match; simpl; try lia.
    match goal with |- (pr_world ?r).2 = _ =>
      match r with read_pages _ _ _ _ ?p ?t ?w'' ?c =>
        specialize (IH p t w'' c) end end.
    cbn zeta in IH. rewrite IH. simpl. lia.
Qed.

Lemma page_count_cons s l :
  page_count (s :: l) = (length (pages s) + page_count l)%nat.
Proof. done. Qed.

Lemma read_slices_counted partitions paginator w count :
  let walk := read_slices limits registry format_exception (counted pipeline)
                partitions paginator w count in
  (w_world walk).2 = (w.2 + page_count (w_slices walk))%nat.
Proof.
  revert paginator w count.
  induction partitions as [|partition partitions IH];
    intros paginator w count; cbn zeta.
  - unfold page_count. simpl. lia.
  - cbn [read_slices]. destruct (reset paginator) as [paginator'|e].
    + pose proof (read_pages_counted (max_pages_per_slice limits) partition
                    paginator' (initial_token paginator') w count) as Hpages.
      cbn zeta in Hpages.
      destruct (pr_outcome _) as [| |e|e];
        cbn [walk_cons w_world w_slices]; rewrite ?IH, page_count_cons;
        cbn [pages]; rewrite Hpages; unfold page_count; simpl; lia.
    + cbn [walk_cons w_world w_slices]. rewrite IH, page_count_cons.
      simpl. lia.
Qed.

Lemma page_count_bound (l : list StreamReadSlices) m :
  Forall (λ s, (length (pages s) ≤ m)%nat) l →
  (page_count l ≤ length l * m)%nat.
Proof.
  induction 1 as [|s l Hs _ IH]; [done|].
  rewrite page_count_cons. cbn [length]. lia.
Qed.

Lemma test_read_counted paginator w :
  ((w_world (test_read limits registry format_exception (counted pipeline)
               paginator (w, 0%nat))).2
   ≤ max_slices limits * max_pages_per_slice limits)%nat.
Proof.
  unfold test_read. cbn [counted list_partitions fst].
  destruct (list_partitions pipeline w) as [partitions|e]; [|simpl; lia].
  pose proof (read_slices_counted (take (max_slices limits) partitions)
                paginator (w, 0%nat) 0%nat) as Hcount.
  destruct (read_slices_bounds limits registry format_exception
              (counted pipeline) (take (max_slices limits) partitions)
              paginator (w, 0%nat) 0%nat) as (Hlen & Hpages & _).
  cbn zeta in Hcount. rewrite Hcount. simpl.
  apply page_count_bound in Hpages. rewrite length_take in Hlen. nia.
Qed.
End CountedFacts.

(** C2: under the limits [(max_records = 100, max_slices = 3,
    max_pages_per_slice = 2)], the test read of a source with more than three
    partitions, whose pages hold 2 records and then 1 record in turn, reports
    exactly 3 partitions of exactly 2 pages each, 2 records on the first page
    and 1 on the second, after six requests; and whatever the source and the
    limits, a report has at most [max_slices] partitions of at most
    [max_pages_per_slice] pages each, and the read fetches at most
    [max_slices * max_pages_per_slice] pages. *)
Theorem read_stream_ceilings :
  (∀ (P W : Type) (H : PaginationStrategy P) limits registry format_exception
     (pipeline : RetrievalPipeline W) (paginator : P) (w : W),
     let r := read_stream limits registry format_exception pipeline paginator
                w in
     (length (slices r) ≤ max_slices limits)%nat
     ∧ Forall (λ s, (length (pages s) ≤ max_pages_per_slice limits)%nat)
         (slices r)
     ∧ ((w_world (test_read limits registry format_exception
                    (counted pipeline) paginator (w, 0%nat))).2
        ≤ max_slices limits * max_pages_per_slice limits)%nat)
  ∧ (∀ partitions,
       (max_slices test_read_source_limits < length partitions)%nat →
       let r := mock_read_stream partitions in
       length (slices r) = 3%nat
       ∧ Forall (λ s, page_sizes s = [2; 1]%nat) (slices r)
       ∧ slice_descriptor <$> slices r = Some <$> take 3 partitions
       ∧ test_read_limit_reached r = false
       ∧ logs r = []
       ∧ w_world (mock_test_read partitions) = 6%nat).
Proof.
  split.
  - intros. cbn zeta. split_and!; [apply read_stream_ceilings_general..|].
    apply test_read_counted.
  - intros partitions Hlen.
    destruct partitions as [|p1 [|p2 [|p3 [|p4 rest]]]]; simpl in Hlen;
      try lia.
    cbn zeta. split_and!; try reflexivity. by repeat constructor.
Qed.

Lemma read_stream_ceilings_witness :
  length (slices (mock_read_stream manifest_partitions)) = 3%nat
  ∧ Forall (λ s, page_sizes s = [2; 1]%nat)
      (slices (mock_read_stream manifest_partitions)).
Proof.
  destruct read_stream_ceilings as [_ Hmock].
  destruct (Hmock manifest_partitions) as (Hslices & Hpages & _).
  - vm_compute. lia.
  - split; [exact Hslices|exact Hpages].
Defined.

Section UnderlyingReadFacts.
Context {P W : Type} `{PaginationStrategy P}.
Variable limits : TestReadLimits.
Variable registry : SecretRegistry.
Variable format_exception : PyExc → string.
Variable pipeline : RetrievalPipeline W.



End UnderlyingReadFacts.



(** The report of the failing source of [test_read_returns_error_response] *)
Example read_stream_error_report :
  failing_read_stream [] (ValueError "error_message")
  = {| logs := [ mkLogMessage "error_message" "ERROR" (Some "error_message")
                   (Some "a stack trace") ];
       slices := [];
       test_read_limit_reached := false;
       auxiliary_requests := [];
       inferred_schema := None;
       inferred_datetime_formats := [];
       latest_config_update := None |}.
Proof. reflexivity. Qed.

(** The answer [test_read_stream_exception_with_secrets] asserts: a TRACE
    message whose text contains the masked text of the exception and not the
    secret *)
Example read_stream_trace_answer :
  let exc := Exception "Test exception with secret key: super_secret_key" in
  ∃ message,
    read_stream_answer ["super_secret_key"] a_wording (Raise exc)
    = TRACE message
    ∧ str_in (filter_secrets ["super_secret_key"] (exc_text exc)) message
      = true
    ∧ str_in "super_secret_key" message = false.
Proof. eexists. split; [reflexivity|]. split; vm_compute; reflexivity. Qed.


(* ===================================================================== *)
(** * Part III: further properties of the sources                         *)
(* ===================================================================== *)

(** ** Induction on values *)

Lemma Value_nested_ind (P : Value → Prop) :
  P VNone → (∀ b, P (VBool b)) → (∀ z, P (VInt z)) → (∀ f, P (VFloat f)) →
  (∀ s, P (VStr s)) →
  (∀ l, Forall P l → P (VList l)) →
  (∀ l, Forall P l → P (VTuple l)) →
  (∀ d, Forall (λ kv, P kv.2) d → P (VDict d)) →
  (∀ l, Forall P l → P (VSet l)) →
  ∀ v, P v.
Proof.
  intros HNone HBool HInt HFloat HStr HList HTuple HDict HSet.
  fix IH 1. intros [|b|z|f|s|l|l|d|l].
  - exact HNone.
  - apply HBool.
  - apply HInt.
  - apply HFloat.
  - apply HStr.
  - apply HList. induction l as [|v l IHl]; constructor; [apply IH|exact IHl].
  - apply HTuple. induction l as [|v l IHl]; constructor; [apply IH|exact IHl].
  - apply HDict.
    induction d as [|[k v] d IHd]; constructor; [apply IH|exact IHd].
  - apply HSet. induction l as [|v l IHl]; constructor; [apply IH|exact IHl].
Qed.

(** ** Secret paths ([get_secret_paths]) *)

Lemma elem_of_concat {A} (x : A) (ls : list (list A)) :
  x ∈ concat ls ↔ ∃ l, x ∈ l ∧ l ∈ ls.
Proof.
  rewrite list_elem_of_In, in_concat. split.
  - intros (l & ? & ?). exists l. by rewrite !list_elem_of_In.
  - intros (l & ? & ?). exists l. by rewrite <- !list_elem_of_In.
Qed.

Lemma map_fmap {A B} (f : A → B) (l : list A) : map f l = f <$> l.
Proof. done. Qed.

Lemma sequence_paths_Paths results ps :
  sequence_paths results = Paths ps
  ↔ ∃ pss, results = Paths <$> pss ∧ ps = concat pss.
Proof.
  revert ps. induction results as [|[ps0|] results IH]; intros ps; simpl.
  - split.
    + intros [= <-]. by exists [].
    + intros (pss & Hnil & ->). symmetry in Hnil.
      by apply fmap_nil_inv in Hnil as ->.
  - split.
    + destruct (sequence_paths results) as [ps'|]; [|done]. intros [= <-].
      destruct (proj1 (IH ps') eq_refl) as (pss & -> & ->).
      by exists (ps0 :: pss).
    + intros (pss & Hcons & ->). destruct pss as [|ps1 pss]; [done|].
      rewrite fmap_cons in Hcons. injection Hcons as -> ->.
      assert (sequence_paths (Paths <$> pss) = Paths (concat pss)) as ->; [|done].
      apply IH. by exists pss.
  - split; [done|]. intros (pss & Hcons & _). by destruct pss.
Qed.

Lemma sequence_paths_raises results :
  sequence_paths results = RaiseIndexError ↔ RaiseIndexError ∈ results.
Proof.
  induction results as [|[ps0|] results IH]; simpl.
  - split; [done|]. by intros ?%elem_of_nil.
  - destruct (sequence_paths results); rewrite elem_of_cons.
    + split; [done|]. intros [?|Hin]; [done|]. by apply IH in Hin.
    + split; [|done]. intros _. right. by apply IH.
  - split; [|done]. intros _. by left.
Qed.

Lemma traverse_schema_raises v :
  ∀ path, traverse_schema v path = RaiseIndexError ↔ path = [] ∧ bare_scalar v.
Proof.
  induction v as [|b|z|f|s|l IH|l _|d IH|l _] using Value_nested_ind;
    intros path;
    try (simpl; destruct (list.last path) as [segment|] eqn:Hlast;
         [split; [by case_match|];
          intros [-> _]; done
         |apply last_None in Hlast as ->; split; [|done]; intros _;
          split; [done|]; by apply bare_here]).
  - simpl. rewrite sequence_paths_raises, list_elem_of_fmap. split.
    + intros (v & Hv & Hin). rewrite Forall_forall in IH.
      symmetry in Hv. apply IH in Hv as [-> Hbare]; [|done].
      split; [done|]. by eapply bare_item.
    + intros [-> Hbare]. inversion Hbare as [v Hd Hl|l' v Hin Hv]; subst.
      * by destruct (Hl l).
      * exists v. split; [|done]. symmetry. rewrite Forall_forall in IH.
        by apply IH.
  - simpl. rewrite sequence_paths_raises, list_elem_of_fmap. split.
    + intros ([k v] & Hv & Hin). rewrite Forall_forall in IH.
      symmetry in Hv. apply (IH _ Hin) in Hv as [Hnil _].
      by destruct path.
    + intros [_ Hbare]. inversion Hbare as [v Hd Hl|]; subst.
      by destruct (Hd d).
Qed.

Lemma traverse_schema_Paths v :
  ∀ path ps, traverse_schema v path = Paths ps →
  ∀ q, q ∈ ps
       ↔ ∃ raw, leads_to_True v raw
                ∧ list.last (path ++ raw) = Some "airbyte_secret"
                ∧ q = filtered_path (path ++ raw).
Proof.
  induction v as [|b|z|f|s|l IH|l _|d IH|l _] using Value_nested_ind;
    intros path ps;
    try (simpl; destruct (list.last path) as [segment|] eqn:Hlast; [|done];
         rewrite ?andb_false_r; intros [= <-] q; split;
         [by intros ?%elem_of_nil|by intros (raw & Hraw & _); inversion Hraw]).
  - (* a boolean *)
    simpl. destruct (list.last path) as [segment|] eqn:Hlast; [|done].
    destruct (String.eqb_spec segment "airbyte_secret") as [->|Hne];
      destruct b; simpl; intros [= <-] q; split;
      try (by intros ?%elem_of_nil);
      try (intros (raw & Hraw & Hsecret & _); inversion Hraw; subst;
           rewrite app_nil_r in Hsecret; congruence).
    + intros ->%list_elem_of_singleton. exists []. rewrite app_nil_r.
      split; [constructor|done].
    + intros (raw & Hraw & _ & ->). inversion Hraw; subst.
      rewrite app_nil_r. by apply list_elem_of_singleton.
  - (* a list *)
    simpl. intros (pss & Hmap & ->)%sequence_paths_Paths q.
    rewrite Forall_forall in IH. rewrite elem_of_concat. split.
    + intros (ps & Hq & Hps).
      assert (Paths ps ∈ Paths <$> pss) as Hin by (by apply list_elem_of_fmap_2).
      rewrite <- Hmap in Hin. apply list_elem_of_fmap in Hin as (v & Hv & Hin).
      symmetry in Hv. destruct (proj1 (IH v Hin path ps Hv q) Hq)
        as (raw & Hraw & Hsecret & ->).
      exists raw. split; [by eapply leads_item|done].
    + intros (raw & Hraw & Hsecret & ->). inversion Hraw; subst.
      assert (traverse_schema v path ∈ Paths <$> pss) as Hin.
      { rewrite <- Hmap, map_fmap.
        by apply (list_elem_of_fmap_2 (λ i, traverse_schema i path)). }
      apply list_elem_of_fmap in Hin as (ps & Hps & Hin).
      exists ps. split; [|done]. eapply IH; eauto.
  - (* a dict *)
    simpl. intros (pss & Hmap & ->)%sequence_paths_Paths q.
    rewrite Forall_forall in IH. rewrite elem_of_concat. split.
    + intros (ps & Hq & Hps).
      assert (Paths ps ∈ Paths <$> pss) as Hin by (by apply list_elem_of_fmap_2).
      rewrite <- Hmap in Hin.
      apply list_elem_of_fmap in Hin as ([k v] & Hv & Hin). simpl in Hv.
      symmetry in Hv. destruct (proj1 (IH _ Hin _ ps Hv q) Hq)
        as (raw & Hraw & Hsecret & ->).
      exists (k :: raw). rewrite <- app_assoc in *. simpl in *.
      split; [by eapply leads_key|done].
    + intros (raw & Hraw & Hsecret & ->). inversion Hraw as [|? k v raw' Hin Hv|];
        subst.
      assert (traverse_schema v (path ++ [k]) ∈ Paths <$> pss) as Hin'.
      { rewrite <- Hmap, map_fmap.
        by apply (list_elem_of_fmap_2
                    (λ kv : string * Value,
                       traverse_schema kv.2 (path ++ [kv.1])) _ (k, v)). }
      apply list_elem_of_fmap in Hin' as (ps & Hps & Hin').
      exists ps. split; [|done]. eapply (IH _ Hin); [done|].
      exists raw'. rewrite <- app_assoc. simpl. done.
Qed.

(** X1: [get_secret_paths] raises [IndexError] exactly when the traversal
    reaches a scalar with an empty path, that is when the schema is itself a
    scalar or has one as an item of its top-level (nested) lists; on an
    object schema it never raises. *)
Theorem get_secret_paths_raises_iff (spec : Value) :
  (get_secret_paths spec = RaiseIndexError ↔ bare_scalar spec)
  ∧ (∀ d, ∃ paths, get_secret_paths (VDict d) = Paths paths).
Proof.
  unfold get_secret_paths. split.
  - rewrite traverse_schema_raises. tauto.
  - intros d. destruct (traverse_schema (VDict d) []) as [paths|] eqn:Hd;
      [eauto|].
    apply traverse_schema_raises in Hd as [_ Hbare].
    inversion Hbare as [v Hd Hl|]; subst. by destruct (Hd d).
Qed.

(** X2: the paths [get_secret_paths] returns are exactly the key paths that
    lead, through nested objects and lists, to a value [True] under the key
    ["airbyte_secret"], without that last key and without the segments
    ["properties"] and ["oneOf"]. *)
Theorem get_secret_paths_sound_complete (spec : Value)
    (paths : list (list string)) :
  get_secret_paths spec = Paths paths →
  ∀ q, q ∈ paths
       ↔ ∃ raw, leads_to_True spec (raw ++ ["airbyte_secret"])
                ∧ q = List.filter kept_segment raw.
Proof.
  intros Hpaths q. unfold get_secret_paths in Hpaths.
  rewrite (traverse_schema_Paths spec [] paths Hpaths q). simpl. split.
  - intros (raw & Hraw & Hlast & ->).
    apply last_Some in Hlast as [raw' ->]. exists raw'.
    split; [done|]. unfold filtered_path. by rewrite removelast_last.
  - intros (raw & Hraw & ->). exists (raw ++ ["airbyte_secret"]).
    split; [done|]. split; [apply last_snoc|].
    unfold filtered_path. by rewrite removelast_last.
Qed.

Lemma get_secret_paths_sound_complete_witness :
  (["password"] ∈ [["password"]])
  ↔ ∃ raw, leads_to_True password_spec (raw ++ ["airbyte_secret"])
           ∧ ["password"] = List.filter kept_segment raw.
Proof.
  apply (get_secret_paths_sound_complete password_spec [["password"]]).
  reflexivity.
Defined.

(** X3: no path returned by [get_secret_paths] has a segment ["properties"]
    or ["oneOf"]: a config key of that name cannot be part of a secret
    path. *)
Theorem get_secret_paths_no_schema_keyword (spec : Value)
    (paths : list (list string)) (q : list string) :
  get_secret_paths spec = Paths paths → q ∈ paths →
  ("properties" ∉ q) ∧ ("oneOf" ∉ q).
Proof.
  intros Hpaths Hq. unfold get_secret_paths in Hpaths.
  apply (traverse_schema_Paths spec [] paths Hpaths q) in Hq
    as (raw & _ & _ & ->).
  unfold filtered_path.
  split; intros Hin%list_elem_of_In%filter_In; by destruct Hin.
Qed.

Lemma get_secret_paths_no_schema_keyword_witness :
  ("properties" ∉ ["password"]) ∧ ("oneOf" ∉ ["password"]).
Proof.
  apply (get_secret_paths_no_schema_keyword password_spec [["password"]]);
    [reflexivity|by left].
Defined.

(** ** Secret masking, continued *)

Lemma filter_secrets_app r1 r2 s :
  filter_secrets (r1 ++ r2) s = filter_secrets r2 (filter_secrets r1 s).
Proof. revert s. induction r1 as [|secret r1 IH]; intros s; simpl; auto. Qed.

(** X4: masking with a registry is masking with its secrets one after the
    other: a secret added with [add_to_secrets] is masked last, on the output
    of the earlier ones; and after [update_secrets] only the new secrets are
    masked. *)
Theorem filter_secrets_composes (registry more : SecretRegistry)
    (secret string_ : string) :
  filter_secrets (registry ++ more) string_
  = filter_secrets more (filter_secrets registry string_)
  ∧ filter_secrets (add_to_secrets secret registry) string_
    = filter_secrets [secret] (filter_secrets registry string_)
  ∧ filter_secrets (update_secrets more registry) string_
    = filter_secrets more string_.
Proof.
  split_and!; [apply filter_secrets_app|apply filter_secrets_app|done].
Qed.

(** X5: a registered secret that is not empty and has no ["*"] never occurs
    in the output of [filter_secrets], whatever the input, whatever else is
    registered and in whatever order. *)
Theorem filter_secrets_hides_registered (registry : SecretRegistry)
    (secret string_ : string) :
  secret ∈ registry → secret ≠ "" → str_in "*" secret = false →
  str_in secret (filter_secrets registry string_) = false.
Proof. intros Hin Hne Hstar. apply filter_secrets_clean; auto. Qed.

Lemma filter_secrets_hides_registered_witness :
  str_in "teo" (filter_secrets ["greta"; "teo"; "john"] "teo and greta") = false.
Proof.
  apply filter_secrets_hides_registered; [|discriminate|reflexivity].
  right. left.
Defined.

(** ** Failed streams ([generate_failed_streams_error_message]) *)

Lemma chars_app (a b : string) : chars (a ++ b)%string = chars a ++ chars b.
Proof. induction a as [|c a IH]; simpl; [done|]. by rewrite IH. Qed.

Lemma occurs_app_l {A} (t a b : list A) : occurs t a → occurs t (a ++ b).
Proof.
  intros (pre & post & ->). exists pre, (post ++ b). by rewrite <- !app_assoc.
Qed.

Lemma occurs_app_r {A} (t a b : list A) : occurs t b → occurs t (a ++ b).
Proof.
  intros (pre & post & ->). exists (a ++ pre), post. by rewrite <- !app_assoc.
Qed.

Section Separator.
Context {A : Type} `{EqDecision A}.
Implicit Types t a b : list A.

(** a block without the separator [c] that begins [a ++ c :: b] lies in [a] *)
Lemma startswith_sep t a c b :
  c ∉ t → startswith t (a ++ c :: b) = true → startswith t a = true.
Proof.
  revert a. induction t as [|x t IH]; intros a Hc; [done|].
  destruct a as [|y a]; simpl.
  - intros [->%bool_decide_eq_true _]%andb_true_iff. exfalso. apply Hc. by left.
  - intros [-> Hst]%andb_true_iff. simpl. apply IH; [|done].
    intros Hin. apply Hc. by right.
Qed.

(** a block without the separator lies on one side of it *)
Lemma occurs_sep t a c b :
  c ∉ t → occurs t (a ++ c :: b) → occurs t a ∨ occurs t b.
Proof.
  intros Hc. induction a as [|y a IH]; simpl.
  - intros [Hst|Hocc]%occurs_cons_inv; [|by right]. left.
    destruct t as [|x t]; [apply occurs_nil|]. simpl in Hst.
    apply andb_true_iff in Hst as [->%bool_decide_eq_true _].
    exfalso. apply Hc. by left.
  - intros [Hst|Hocc]%occurs_cons_inv.
    + left. apply startswith_occurs.
      by apply (startswith_sep t (y :: a) c b).
    + destruct (IH Hocc) as [?|?]; [left|by right]. by apply occurs_cons.
Qed.
End Separator.

Lemma str_in_false t s : str_in t s = false ↔ ¬ occurs (chars t) (chars s).
Proof. apply not_contains_occurs. Qed.

Lemma str_in_true t s : str_in t s = true ↔ occurs (chars t) (chars s).
Proof. apply contains_occurs. Qed.

Lemma char_free c t : str_in (String c "") t = false → c ∉ chars t.
Proof.
  intros Hfree%str_in_false Hin. apply Hfree.
  apply list_elem_of_split in Hin as (pre & post & ->). by exists pre, post.
Qed.

Lemma str_in_concat x sep l : x ∈ l → str_in x (String.concat sep l) = true.
Proof.
  intros Hin. apply str_in_true.
  induction l as [|y l IH]; [by apply elem_of_nil in Hin|].
  apply elem_of_cons in Hin as [->|Hin].
  - destruct l as [|z l]; simpl; [exists [], []; simpl; by rewrite app_nil_r|].
    rewrite chars_app.
    exists [], (chars (sep ++ String.concat sep (z :: l))%string).
    done.
  - destruct l as [|z l]; [by apply elem_of_nil in Hin|].
    cbn [String.concat]. rewrite !chars_app.
    by apply occurs_app_r, occurs_app_r, IH.
Qed.

Lemma failure_lines_elem registry repr stream_failures stream exceptions e :
  (stream, exceptions) ∈ stream_failures → e ∈ exceptions →
  (stream ++ ": " ++ filter_secrets registry (repr e))%string
  ∈ failure_lines registry repr stream_failures.
Proof.
  intros Hin He. unfold failure_lines.
  apply list_elem_of_In, in_flat_map. exists (stream, exceptions).
  split; [by apply list_elem_of_In|]. simpl.
  apply list_elem_of_In. rewrite map_fmap.
  by apply (list_elem_of_fmap_2
              (λ exception,
                 (stream ++ ": " ++ filter_secrets registry (repr exception))
                 %string)).
Qed.

(** X6: the message names every stream that has a failure and carries the
    masked rendering of each of its exceptions; the stream name itself is not
    masked. *)
Theorem failed_streams_message_complete (registry : SecretRegistry)
    (repr : PyExc → string) (stream_failures : list (string * list PyExc))
    (stream : string) (exceptions : list PyExc) (e : PyExc) :
  (stream, exceptions) ∈ stream_failures → e ∈ exceptions →
  let message :=
    generate_failed_streams_error_message registry repr stream_failures in
  str_in (stream ++ ": " ++ filter_secrets registry (repr e))%string message
  = true
  ∧ str_in stream message = true.
Proof.
  intros Hin He message.
  assert (str_in (stream ++ ": " ++ filter_secrets registry (repr e))%string
            message = true) as Hline.
  { apply str_in_true. unfold message, generate_failed_streams_error_message.
    cbn zeta. rewrite (chars_app FAILED_STREAMS).
    apply occurs_app_r, str_in_true.
    by eapply str_in_concat, failure_lines_elem. }
  split; [done|]. apply str_in_true. apply str_in_true in Hline.
  destruct Hline as (pre & post & ->). rewrite chars_app.
  exists pre, (chars (": " ++ filter_secrets registry (repr e))%string ++ post).
  by rewrite <- !app_assoc.
Qed.

Lemma failed_streams_message_complete_witness :
  str_in "users: ValueError('token=****')"
    (generate_failed_streams_error_message ["abc"] plain_repr
       [("lists", []); ("users", [ValueError "token=abc"])]) = true
  ∧ str_in "users"
      (generate_failed_streams_error_message ["abc"] plain_repr
         [("lists", []); ("users", [ValueError "token=abc"])]) = true.
Proof.
  destruct (failed_streams_message_complete ["abc"] plain_repr
              [("lists", []); ("users", [ValueError "token=abc"])]
              "users" [ValueError "token=abc"] (ValueError "token=abc"))
    as [Hline Hname].
  - right. left.
  - left.
  - split; [|exact Hname]. vm_compute. reflexivity.
Defined.

Lemma occurs_nil_inv {A} (t : list A) : occurs t [] → t = [].
Proof.
  intros (pre & post & Hnil). symmetry in Hnil.
  apply app_eq_nil in Hnil as [_ Hnil]. by apply app_eq_nil in Hnil as [-> _].
Qed.

Lemma concat_clean (t : list ascii) (c : ascii) (lines : list string) :
  t ≠ [] → c ∉ t →
  (∀ line, line ∈ lines → ¬ occurs t (chars line)) →
  ¬ occurs t (chars (String.concat (String c "") lines)).
Proof.
  intros Hne Hc. induction lines as [|x lines IH]; intros Hlines.
  - by intros ?%occurs_nil_inv.
  - destruct lines as [|y lines]; [apply Hlines; by left|].
    cbn [String.concat]. rewrite chars_app. simpl.
    intros [?|?]%occurs_sep; [|by apply IH; [intros; apply Hlines; right|]|done].
    by apply (Hlines x); [left|].
Qed.

(** X7: a registered secret that is not empty, has none of the characters
    ["*"], [":"], the space and the newline, and occurs neither in a stream
    name nor in the fixed sentence, does not occur in the message. *)
Theorem failed_streams_message_clean (registry : SecretRegistry)
    (repr : PyExc → string) (stream_failures : list (string * list PyExc))
    (secret : string) :
  secret ∈ registry → secret ≠ "" →
  str_in "*" secret = false → str_in ":" secret = false →
  str_in " " secret = false → str_in newline secret = false →
  str_in secret FAILED_STREAMS = false →
  (∀ stream exceptions,
     (stream, exceptions) ∈ stream_failures → str_in secret stream = false) →
  str_in secret
    (generate_failed_streams_error_message registry repr stream_failures)
  = false.
Proof.
  intros Hin Hne Hstar Hcolon%char_free Hspace%char_free Hnewline%char_free
    Hsentence%str_in_false Hstreams.
  assert (chars secret ≠ []) as Hchars by (by intros ?%chars_nil).
  apply str_in_false. unfold generate_failed_streams_error_message. cbn zeta.
  rewrite (chars_app FAILED_STREAMS).
  assert (chars FAILED_STREAMS
          = removelast (chars FAILED_STREAMS) ++ [" "%char]) as Hlast
    by reflexivity.
  rewrite Hlast, <- app_assoc. simpl app at 2.
  intros [Hocc|Hocc]%occurs_sep; [| |done].
  { apply Hsentence. rewrite Hlast. by apply occurs_app_l. }
  revert Hocc. apply concat_clean; [done..|].
  intros line Hline. unfold failure_lines in Hline.
  apply list_elem_of_In, in_flat_map in Hline as ([stream exceptions] & Hf & Hline).
  apply in_map_iff in Hline as (e & <- & He). simpl.
  apply list_elem_of_In in Hf. rewrite chars_app. simpl.
  intros [Hocc|Hocc]%occurs_sep; [| |done].
  { by apply (proj1 (str_in_false _ _) (Hstreams _ _ Hf)). }
  apply (occurs_sep _ []) in Hocc as [Hocc|Hocc]; [| |done].
  { by apply occurs_nil_inv in Hocc. }
  revert Hocc. apply str_in_false, filter_secrets_clean; auto.
Qed.

Lemma failed_streams_message_clean_witness :
  str_in "abc"
    (generate_failed_streams_error_message ["abc"] plain_repr
       [("lists", []); ("users", [ValueError "token=abc"])]) = false.
Proof.
  apply failed_streams_message_clean; try reflexivity.
  - left.
  - discriminate.
  - intros stream exceptions Hin. rewrite !elem_of_cons, elem_of_nil in Hin.
    destruct Hin as [[= -> _]|[[= -> _]|[]]]; reflexivity.
Defined.

(** ** Masking inserts nothing but the mask *)

Lemma replace_ne_elem_of {A} `{EqDecision A} (o : A) old' new s x :
  x ∈ replace_ne o old' new s → x ∈ s ∨ x ∈ new.
Proof.
  funelim (replace_ne o old' new s).
  - by intros ?%elem_of_nil.
  - intros [?|Hin]%elem_of_app; [by right|].
    destruct (H _ Hin) as [Hd|?]; [left|by right].
    right. by eapply subseteq_drop.
  - intros [->|Hin]%elem_of_cons; [left; by left|].
    destruct (H _ Hin) as [?|?]; [left; by right|by right].
Qed.

(** X8: every character of the output of [filter_secrets] is a character of
    the input or the character of the mask. *)
Theorem filter_secrets_only_inserts_mask (registry : SecretRegistry)
    (string_ : string) (c : ascii) :
  c ∈ chars (filter_secrets registry string_) →
  c ∈ chars string_ ∨ c = "*"%char.
Proof.
  revert string_. induction registry as [|secret rest IH]; intros s; simpl;
    [by left|].
  intros [Hin|?]%IH; [|by right].
  destruct (String.eqb secret "") eqn:He; simpl in Hin; [by left|].
  unfold str_replace in Hin. rewrite chars_text in Hin.
  destruct (chars secret) as [|o old'] eqn:Hc; simpl in Hin.
  - apply chars_nil in Hc. by apply eqb_empty_false in He.
  - apply replace_ne_elem_of in Hin as [?|Hin]; [by left|]. right.
    rewrite !elem_of_cons, elem_of_nil in Hin.
    by destruct Hin as [?|[?|[?|[?|[]]]]].
Qed.

Lemma filter_secrets_only_inserts_mask_witness :
  "*"%char ∈ chars "a*" ∨ "*"%char = "*"%char.
Proof.
  apply (filter_secrets_only_inserts_mask ["teo"] "a*"). vm_compute.
  right. left.
Defined.

(** ** The mapping view of a StreamSlice *)

Lemma dict_get_None k (d : Dict) : dict_get k d = None ↔ k ∉ dict_keys d.
Proof.
  unfold dict_keys. induction d as [|[k' v] d IH]; simpl.
  - split; [|done]. intros _ ?%elem_of_nil. done.
  - rewrite not_elem_of_cons. destruct (String.eqb_spec k k') as [->|Hne].
    + split; [done|]. by intros [? _].
    + rewrite IH. tauto.
Qed.

Lemma dict_get_app k (a b : Dict) :
  dict_get k (a ++ b)
  = match dict_get k a with
    | Some v => Some v
    | None => dict_get k b
    end.
Proof.
  induction a as [|[k' v] a IH]; simpl; [done|].
  by destruct (String.eqb k k').
Qed.

Lemma dict_set_fresh k v (d : Dict) :
  k ∉ dict_keys d → dict_set k v d = d ++ [(k, v)].
Proof.
  unfold dict_keys. induction d as [|[k' v'] d IH]; simpl; [done|].
  rewrite not_elem_of_cons. intros [Hne Hd].
  apply String.eqb_neq in Hne. rewrite Hne. by rewrite IH.
Qed.

Lemma dict_union_disjoint (a b : Dict) :
  NoDup (dict_keys b) → (∀ k, k ∈ dict_keys b → k ∉ dict_keys a) →
  dict_union a b = a ++ b.
Proof.
  unfold dict_union. revert a.
  induction b as [|[k v] b IH]; intros a Hnodup Hdisjoint; simpl.
  - by rewrite app_nil_r.
  - unfold dict_keys in *. simpl in Hnodup. apply NoDup_cons in Hnodup as [Hk Hb].
    rewrite dict_set_fresh by (apply Hdisjoint; simpl; by left).
    rewrite IH; [by rewrite <- app_assoc|done|].
    intros k' Hk'. unfold dict_keys. rewrite fmap_app, not_elem_of_app. split.
    + apply Hdisjoint. simpl. by right.
    + simpl. rewrite not_elem_of_cons. split; [|by intros ?%elem_of_nil].
      by intros ->.
Qed.

Lemma StreamSlice_init_merged p c e s :
  StreamSlice.__init__ p c e = Ok s →
  NoDup (dict_keys (mapping_dict c)) →
  _stream_slice s = mapping_dict p ++ mapping_dict c.
Proof.
  intros Hinit Hnodup.
  pose proof (StreamSlice_init_Ok _ _ _ _ Hinit) as (_ & _ & Hshare).
  unfold StreamSlice.__init__ in Hinit.
  destruct (negb _); [done|]. injection Hinit as <-. simpl.
  apply dict_union_disjoint; [done|]. intros k Hc Hp. apply Hshare.
  by exists k.
Qed.

(** X9: a StreamSlice constructed from a partition and a cursor_slice (whose
    keys are distinct, as in any dict) shows the entries of the partition
    followed by those of the cursor_slice: nothing is lost, nothing is
    reordered, and its length is the sum of the two. *)
Theorem StreamSlice_merged_view (partition cursor_slice : Mapping)
    (extra_fields : option Mapping) (s : StreamSlice) :
  StreamSlice.__init__ partition cursor_slice extra_fields = Ok s →
  NoDup (dict_keys (mapping_dict cursor_slice)) →
  StreamSliceView.items s = mapping_dict partition ++ mapping_dict cursor_slice
  ∧ StreamSliceView.keys s
    = dict_keys (mapping_dict partition) ++ dict_keys (mapping_dict cursor_slice)
  ∧ StreamSliceView.__len__ s
    = (length (mapping_dict partition) + length (mapping_dict cursor_slice))%nat.
Proof.
  intros Hinit Hnodup.
  unfold StreamSliceView.items, StreamSliceView.keys, StreamSliceView.__len__.
  rewrite (StreamSlice_init_merged _ _ _ _ Hinit Hnodup).
  unfold dict_keys. by rewrite fmap_app, length_app.
Qed.

Lemma StreamSlice_merged_view_witness :
  StreamSliceView.items item_slice
  = [("item_id", VStr "0")] ++ [("start", VInt 1); ("end", VInt 2)]
  ∧ StreamSliceView.keys item_slice = ["item_id"] ++ ["start"; "end"]
  ∧ StreamSliceView.__len__ item_slice = (1 + 2)%nat.
Proof.
  apply (StreamSlice_merged_view (MDict [("item_id", VStr "0")])
           (MDict [("start", VInt 1); ("end", VInt 2)]) None item_slice);
    [reflexivity|].
  vm_compute. repeat constructor; rewrite ?elem_of_cons, ?elem_of_nil;
    intros Hin; repeat destruct Hin as [Hin|Hin]; done.
Defined.

(** X10: looking a key up in a constructed StreamSlice finds the partition's
    value if the partition has the key, else the cursor_slice's; indexing
    raises [KeyError] exactly when neither has it, and [get] then returns the
    default. *)
Theorem StreamSlice_lookup (partition cursor_slice : Mapping)
    (extra_fields : option Mapping) (s : StreamSlice) (key : string)
    (default_value : Value) :
  StreamSlice.__init__ partition cursor_slice extra_fields = Ok s →
  NoDup (dict_keys (mapping_dict cursor_slice)) →
  let found :=
    match dict_get key (mapping_dict partition) with
    | Some v => Some v
    | None => dict_get key (mapping_dict cursor_slice)
    end in
  StreamSliceView.__getitem__ s key
  = match found with Some v => Found v | None => RaiseKeyError key end
  ∧ StreamSliceView.get s key default_value = default default_value found
  ∧ (StreamSliceView.__getitem__ s key = RaiseKeyError key
     ↔ (key ∉ dict_keys (mapping_dict partition))
       ∧ (key ∉ dict_keys (mapping_dict cursor_slice)))
  ∧ (StreamSliceView.__contains__ s key = true
     ↔ key ∈ dict_keys (mapping_dict partition)
       ∨ key ∈ dict_keys (mapping_dict cursor_slice)).
Proof.
  intros Hinit Hnodup found.
  unfold StreamSliceView.__getitem__, StreamSliceView.get,
    StreamSliceView.__contains__, dict_getitem, dict_has.
  rewrite (StreamSlice_init_merged _ _ _ _ Hinit Hnodup), dict_get_app.
  fold found. split_and!.
  - done.
  - by destruct found.
  - rewrite <- !dict_get_None. unfold found.
    destruct (dict_get key (mapping_dict partition));
      destruct (dict_get key (mapping_dict cursor_slice)); split;
      try done; by intros [??].
  - rewrite bool_decide_eq_true. unfold dict_keys.
    by rewrite fmap_app, elem_of_app.
Qed.

Lemma StreamSlice_lookup_witness :
  StreamSliceView.__getitem__ item_slice "start" = Found (VInt 1)
  ∧ StreamSliceView.get item_slice "page" VNone = VNone.
Proof.
  destruct (StreamSlice_lookup (MDict [("item_id", VStr "0")])
              (MDict [("start", VInt 1); ("end", VInt 2)]) None item_slice
              "start" VNone eq_refl) as (Hitem & _).
  { vm_compute. repeat constructor; rewrite ?elem_of_cons, ?elem_of_nil;
      intros Hin; repeat destruct Hin as [Hin|Hin]; done. }
  destruct (StreamSlice_lookup (MDict [("item_id", VStr "0")])
              (MDict [("start", VInt 1); ("end", VInt 2)]) None item_slice
              "page" VNone eq_refl) as (_ & Hget & _).
  { vm_compute. repeat constructor; rewrite ?elem_of_cons, ?elem_of_nil;
      intros Hin; repeat destruct Hin as [Hin|Hin]; done. }
  split; [exact Hitem|exact Hget].
Defined.

(** X11: constructing a StreamSlice succeeds exactly when the partition and
    the cursor_slice share no key; the slice then stores both as given, and
    its extra fields are the given ones, or an empty dict when none or an
    empty mapping was given. *)
Theorem StreamSlice_init_succeeds_iff (partition cursor_slice : Mapping)
    (extra_fields : option Mapping) :
  ((∃ s, StreamSlice.__init__ partition cursor_slice extra_fields = Ok s)
   ↔ ¬ share_a_key partition cursor_slice)
  ∧ (∀ s,
       StreamSlice.__init__ partition cursor_slice extra_fields = Ok s →
       _partition s = partition ∧ _cursor_slice s = cursor_slice
       ∧ StreamSlice.extra_fields s
         = match extra_fields with
           | Some m => if decide (mapping_dict m = []) then MDict [] else m
           | None => MDict []
           end).
Proof.
  split.
  - split.
    + intros [s Hs]. by apply StreamSlice_init_Ok in Hs as (_ & _ & ?).
    + rewrite <- keys_intersection_share. intros Hnil.
      unfold StreamSlice.__init__.
      destruct (keys_intersection partition cursor_slice); [eauto|].
      by destruct Hnil.
  - intros s Hs. pose proof (StreamSlice_init_Ok _ _ _ _ Hs) as (Hp & Hc & _).
    split; [done|]. split; [done|]. unfold StreamSlice.__init__ in Hs.
    destruct (negb _); [done|]. injection Hs as <-. simpl.
    destruct extra_fields as [m|]; [|done].
    destruct (mapping_dict m); by case_decide.
Qed.

(** ** Counter pagination, continued *)

Lemma PageIncrement_feed_state self response sizes :
  ∃ page,
    (PageIncrement.feed self response sizes).1 = PageIncrement.set_page self page.
Proof.
  revert self. induction sizes as [|n sizes IH]; intros self.
  - exists (PageIncrement._page self). by destruct self.
  - cbn [PageIncrement.feed]. unfold PageIncrement.next_page_token.
    destruct (_ || _).
    + destruct (IH self) as [page Hpage].
      destruct (PageIncrement.feed self response sizes). by exists page.
    + destruct (IH (PageIncrement.set_page self (PageIncrement._page self + 1)))
        as [page Hpage].
      destruct (PageIncrement.feed _ response sizes). simpl in *.
      exists page. subst. by destruct self.
Qed.

(** X12: [reset()] undoes pagination: whatever pages a freshly constructed
    strategy has been fed, resetting it without a value gives back the
    strategy as constructed; and resetting it to an integer [page] makes the
    next token after a non-final page [page + 1]. *)
Theorem PageIncrement_reset_restores `{Interpolation}
    (config parameters : Dict) (page_size : PageIncrement.PageSize)
    (start_from_page : Z) (inject_on_first_request : bool)
    (self : PageIncrement.t) (response : Response) (sizes : list Z) :
  PageIncrement.__post_init__ config page_size parameters start_from_page
    inject_on_first_request = Ok self →
  let fed := (PageIncrement.feed self response sizes).1 in
  PageIncrement.reset fed VNone = Ok self
  ∧ (∀ page, ∃ self',
       PageIncrement.reset fed (VInt page) = Ok self'
       ∧ PageIncrement.initial_token self'
         = (if inject_on_first_request then Some page else None)
       ∧ ∀ n last_record,
           (PageIncrement.next_page_token self' response n last_record).2
           ≠ None →
           (PageIncrement.next_page_token self' response n last_record).2
           = Some (page + 1)).
Proof.
  intros Hinit fed.
  assert (PageIncrement._page self = start_from_page
          ∧ PageIncrement.start_from_page self = start_from_page
          ∧ PageIncrement.inject_on_first_request self
            = inject_on_first_request) as (Hpage & Hstart & Hinject).
  { unfold PageIncrement.__post_init__ in Hinit.
    destruct page_size; [by injection Hinit as <-..|].
    destruct (is_int _); [by injection Hinit as <-|done]. }
  destruct (PageIncrement_feed_state self response sizes) as [page' Hfed].
  fold fed in Hfed. rewrite Hfed. split.
  - simpl. rewrite Hstart, <- Hpage. by destruct self.
  - intros page. eexists. split; [done|]. split.
    + unfold PageIncrement.initial_token. simpl. by rewrite Hinject.
    + intros n last_record. unfold PageIncrement.next_page_token.
      by destruct (_ || _).
Qed.

Lemma PageIncrement_reset_restores_witness :
  PageIncrement.reset
    (PageIncrement.feed a_page_increment (mock_response 0) [2; 2; 1]).1 VNone
  = Ok a_page_increment.
Proof.
  by destruct (PageIncrement_reset_restores (H := manifest_interpolation) [] []
                 (PageIncrement.PSInt 2) 0 false a_page_increment
                 (mock_response 0) [2; 2; 1] eq_refl) as [Hreset _].
Defined.

(** X13: the tokens a PageIncrement strategy hands out over any sequence of
    calls are the consecutive pages after its current one, one token or
    [None] per call, and its page counter ends on the last token handed
    out. *)
Theorem PageIncrement_tokens_consecutive (self : PageIncrement.t)
    (response : Response) (sizes : list Z) :
  let fed := PageIncrement.feed self response sizes in
  let tokens := omap id fed.2 in
  length fed.2 = length sizes
  ∧ tokens
    = (λ i, PageIncrement._page self + Z.of_nat i) <$> seq 1 (length tokens)
  ∧ PageIncrement._page fed.1
    = PageIncrement._page self + Z.of_nat (length tokens)
  ∧ PageIncrement._page_size fed.1 = PageIncrement._page_size self.
Proof.
  cbn zeta. revert self. induction sizes as [|n sizes IH]; intros self.
  - simpl. split_and!; [done..|lia|done].
  - cbn [PageIncrement.feed]. unfold PageIncrement.next_page_token.
    destruct (_ || _).
    + specialize (IH self).
      destruct (PageIncrement.feed self response sizes) as [self' tokens].
      cbn -[Z.of_nat Z.add] in *.
      destruct IH as (Hlen & Htokens & Hpage & Hsize).
      split_and!; [by f_equal|done..].
    + specialize (IH (PageIncrement.set_page self
                        (PageIncrement._page self + 1))).
      destruct (PageIncrement.feed _ response sizes) as [self' tokens].
      cbn -[Z.of_nat Z.add] in *.
      destruct IH as (Hlen & Htokens & Hpage & Hsize).
      split_and!; [by f_equal| |lia|done].
      f_equal; try lia. rewrite Htokens at 1.
      rewrite <- (fmap_S_seq 1), <- list_fmap_compose. apply list_fmap_ext.
      intros _ i _. cbn -[Z.of_nat Z.add]. lia.
Qed.

(** X14: with a positive page size the strategy stops exactly on a page
    shorter than the page size; a page size of [0] counts as no page size:
    the strategy then stops exactly on an empty page. *)
Theorem PageIncrement_stop_rule (self : PageIncrement.t) (response : Response)
    (n : Z) (last_record : option Record_) :
  let token :=
    (PageIncrement.next_page_token self response n last_record).2 in
  match PageIncrement._page_size self with
  | Some page_size =>
      if decide (0 < page_size) then token = None ↔ n < page_size
      else if decide (page_size = 0) then token = None ↔ n = 0
      else token = None ↔ n < page_size ∨ n = 0
  | None => token = None ↔ n = 0
  end.
Proof.
  cbn zeta. unfold PageIncrement.next_page_token.
  destruct (PageIncrement._page_size self) as [page_size|]; simpl.
  - destruct (Z.eqb_spec page_size 0), (Z.ltb_spec n page_size),
      (Z.eqb_spec n 0); repeat case_decide; simpl; split; intros;
      try done; try lia.
  - destruct (Z.eqb_spec n 0); simpl; split; intros; try done; lia.
Qed.

(** X15: constructing a PageIncrement strategy fails only for a page size
    given as a template that does not evaluate to an integer (a [bool]
    counts as one); a constructed strategy starts on [start_from_page], has
    that page as initial token when [inject_on_first_request] is set and none
    otherwise, and an integer or absent page size is kept as given. *)
Theorem PageIncrement_construction `{Interpolation}
    (config parameters : Dict) (page_size : PageIncrement.PageSize)
    (start_from_page : Z) (inject_on_first_request : bool) :
  let made :=
    PageIncrement.__post_init__ config page_size parameters start_from_page
      inject_on_first_request in
  (∀ e, made = Raise e →
        ∃ template, page_size = PageIncrement.PSStr template
          ∧ is_int (interpolated_string_eval template parameters config [])
            = None)
  ∧ (∀ self, made = Ok self →
       PageIncrement._page self = start_from_page
       ∧ PageIncrement.initial_token self
         = (if inject_on_first_request then Some start_from_page else None)
       ∧ PageIncrement.get_page_size self
         = match page_size with
           | PageIncrement.PSInt z => Some z
           | PageIncrement.PSNone => None
           | PageIncrement.PSStr template =>
               is_int (interpolated_string_eval template parameters config [])
           end).
Proof.
  cbn zeta. unfold PageIncrement.__post_init__. split.
  - intros e. destruct page_size as [z| |template]; [done..|].
    destruct (is_int _) eqn:Hint; [done|]. eauto.
  - intros self. destruct page_size as [z| |template];
      [by intros [= <-]..|].
    destruct (is_int _) eqn:Hint; [|done]. by intros [= <-].
Qed.

(** ** Cursor pagination, continued *)

(** X16: when the decoder yields nothing for the response, [next_page_token]
    of the cursor strategy raises [StopIteration], whatever the stop
    condition and the cursor are; of what the decoder yields only the first
    body counts; and a token it returns is never a falsy value (never
    [None], [False], a zero, the empty string or an empty container). *)
Theorem CursorPagination_outcomes `{Interpolation}
    (self : CursorPaginationStrategy.t) (response : Response)
    (last_page_size : Z) (last_record : option Record_) :
  let next :=
    CursorPaginationStrategy.next_page_token self response last_page_size
      last_record in
  (CursorPaginationStrategy.decoder self response = [] →
   next = Raise StopIteration)
  ∧ (∀ decoder' : Response → list Value,
       head (decoder' response)
       = head (CursorPaginationStrategy.decoder self response) →
       CursorPaginationStrategy.next_page_token
         (CursorPaginationStrategy.mk
            (CursorPaginationStrategy.config self)
            (CursorPaginationStrategy.page_size self) decoder'
            (CursorPaginationStrategy._initial_cursor self)
            (CursorPaginationStrategy._cursor_value self)
            (CursorPaginationStrategy._stop_condition self))
         response last_page_size last_record
       = next)
  ∧ (∀ token, next = Ok (Some token) → ¬ falsy token).
Proof.
  cbn zeta. unfold CursorPaginationStrategy.next_page_token. split_and!.
  - by intros ->.
  - intros decoder' Hhead. cbn [CursorPaginationStrategy.decoder
      CursorPaginationStrategy.config CursorPaginationStrategy._cursor_value
      CursorPaginationStrategy._stop_condition].
    destruct (decoder' response) as [|d' rest'],
      (CursorPaginationStrategy.decoder self response) as [|d rest];
      simplify_eq/=; done.
  - destruct (CursorPaginationStrategy.decoder self response) as [|d rest];
      cbn [mbind Result_bind]; [done|].
    destruct (match CursorPaginationStrategy._stop_condition self with
              | Some _ => _ | None => _ end); [done|].
    destruct (truthy _) eqn:Htruthy; [|done].
    intros token [= <-] Hfalsy%truthy_falsy. congruence.
Qed.

Lemma CursorPagination_outcomes_witness :
  CursorPaginationStrategy.next_page_token (H := manifest_interpolation)
    silent_paginator (mock_response 1) 1 None = Raise StopIteration
  ∧ ¬ falsy (VStr "next").
Proof.
  destruct (CursorPagination_outcomes (H := manifest_interpolation)
              silent_paginator (mock_response 1) 1 None) as (Hsilent & _ & _).
  destruct (CursorPagination_outcomes (H := manifest_interpolation)
              manifest_paginator (mock_response 1) 1 None) as (_ & _ & Htoken).
  split; [exact (Hsilent eq_refl)|exact (Htoken (VStr "next") eq_refl)].
Defined.

(** ** Request parameters of the unstructured parser ([_params_to_dict]) *)

Lemma dict_get_set_eq k v (d : Dict) : dict_get k (dict_set k v d) = Some v.
Proof.
  induction d as [|[k' v'] d IH]; simpl.
  - by rewrite String.eqb_refl.
  - destruct (String.eqb k k') eqn:Hk; simpl; by rewrite Hk.
Qed.

Lemma dict_get_set_ne k k' v (d : Dict) :
  k ≠ k' → dict_get k (dict_set k' v d) = dict_get k d.
Proof.
  intros Hne. induction d as [|[k'' v''] d IH]; simpl.
  - by apply String.eqb_neq in Hne as ->.
  - destruct (String.eqb k' k'') eqn:Hk'; simpl; [|by rewrite IH].
    apply String.eqb_eq in Hk' as <-.
    by apply String.eqb_neq in Hne as ->.
Qed.

Lemma dict_keys_set k v (d : Dict) :
  dict_keys (dict_set k v d)
  = if bool_decide (k ∈ dict_keys d) then dict_keys d else dict_keys d ++ [k].
Proof.
  unfold dict_keys. induction d as [|[k' v'] d IH]; [done|].
  cbn [dict_set]. destruct (String.eqb_spec k k') as [->|Hne].
  - rewrite !fmap_cons. cbn [fst].
    rewrite bool_decide_eq_true_2; [done|by left].
  - rewrite !fmap_cons, IH. cbn [fst]. case_bool_decide as Hin.
    + rewrite bool_decide_eq_true_2; [done|by right].
    + rewrite bool_decide_eq_false_2; [done|].
      by intros [?|?]%elem_of_cons.
Qed.

Lemma stored_snoc values v :
  stored (values ++ [v])
  = match stored values with
    | None => Some (VStr v)
    | Some (VList l) => Some (VList (l ++ [VStr v]))
    | Some existing => Some (VList [existing; VStr v])
    end.
Proof.
  destruct values as [|x [|y values]]; [done..|].
  simpl. by rewrite !fmap_app.
Qed.

Lemma add_param_stored (d : Dict) (g : string → list string) name value :
  (∀ k, dict_get k d = stored (g k)) →
  ∀ k, dict_get k (UnstructuredParser.add_param d (name, value))
       = stored (g k ++ if String.eqb name k then [value] else []).
Proof.
  intros Hd k. unfold UnstructuredParser.add_param. simpl.
  destruct (String.eqb_spec name k) as [->|Hne].
  - rewrite stored_snoc, <- Hd.
    destruct (dict_get k d) as [[]|]; by rewrite dict_get_set_eq.
  - rewrite app_nil_r, <- Hd.
    destruct (dict_get name d) as [[]|]; by rewrite dict_get_set_ne.
Qed.

Lemma fold_add_param_stored params :
  ∀ (d : Dict) (g : string → list string),
    (∀ k, dict_get k d = stored (g k)) →
    ∀ k, dict_get k (fold_left UnstructuredParser.add_param params d)
         = stored (g k
                   ++ (List.filter (λ item : string * string,
                                      String.eqb item.1 k) params).*2).
Proof.
  induction params as [|[name value] params IH]; intros d g Hd k; simpl.
  - by rewrite app_nil_r.
  - rewrite (IH _ (λ k, g k ++ if String.eqb name k then [value] else []));
      [|by apply add_param_stored].
    rewrite <- app_assoc. by destruct (String.eqb name k).
Qed.

(** X18: in the dict made by [_params_to_dict] every key holds all the
    values given for it, in order: the strategy first under ["strategy"], then
    the values of the parameters of that name; one value is stored as a
    string, several as a list, and a key without values is absent.  A
    parameter named ["strategy"] therefore does not replace the strategy but
    is listed after it. *)
Theorem params_to_dict_collects (params : list (string * string))
    (strategy key : string) :
  dict_get key (UnstructuredParser._params_to_dict (Some params) strategy)
  = stored (values_for key params strategy)
  ∧ dict_get key (UnstructuredParser._params_to_dict None strategy)
    = stored (values_for key [] strategy).
Proof.
  unfold UnstructuredParser._params_to_dict, values_for. split.
  - apply (fold_add_param_stored params [("strategy", VStr strategy)]
             (λ k, if String.eqb k "strategy" then [strategy] else [])).
    intros k. simpl. by destruct (String.eqb k "strategy").
  - simpl. rewrite app_nil_r. by destruct (String.eqb key "strategy").
Qed.

Lemma add_param_keys (d : Dict) item :
  dict_keys (UnstructuredParser.add_param d item)
  = if bool_decide (item.1 ∈ dict_keys d) then dict_keys d
    else dict_keys d ++ [item.1].
Proof.
  unfold UnstructuredParser.add_param.
  destruct (dict_get item.1 d) as [[]|]; apply dict_keys_set.
Qed.

(** X19: the keys of the dict made by [_params_to_dict] are distinct; they
    are ["strategy"], which comes first, and the names of the parameters. *)
Theorem params_to_dict_keys (params : list (string * string))
    (strategy : string) :
  let result := UnstructuredParser._params_to_dict (Some params) strategy in
  NoDup (dict_keys result)
  ∧ head (dict_keys result) = Some "strategy"
  ∧ ∀ key, key ∈ dict_keys result ↔ key = "strategy" ∨ key ∈ params.*1.
Proof.
  cbn zeta. unfold UnstructuredParser._params_to_dict.
  assert (∀ d : Dict,
            NoDup (dict_keys d) → d ≠ [] →
            NoDup (dict_keys (fold_left UnstructuredParser.add_param params d))
            ∧ head (dict_keys (fold_left UnstructuredParser.add_param params d))
              = head (dict_keys d)
            ∧ ∀ key, key ∈ dict_keys
                             (fold_left UnstructuredParser.add_param params d)
                     ↔ key ∈ dict_keys d ∨ key ∈ params.*1) as Hfold.
  { induction params as [|item params IH]; intros d Hnodup Hne; simpl.
    - split_and!; [done..|]. intros key. rewrite elem_of_nil. tauto.
    - destruct (IH (UnstructuredParser.add_param d item)) as (IH1 & IH2 & IH3).
      + rewrite add_param_keys. case_bool_decide as Hin; [done|].
        apply NoDup_app. split_and!; [done| |apply NoDup_singleton].
        intros k Hk ->%list_elem_of_singleton. done.
      + intros Hnil. apply (f_equal dict_keys) in Hnil.
        rewrite add_param_keys in Hnil. destruct d; [done|].
        by case_bool_decide.
      + split_and!; [done| |].
        * rewrite IH2, add_param_keys. destruct d; [done|].
          by case_bool_decide.
        * intros key. rewrite IH3, add_param_keys, elem_of_cons.
          case_bool_decide as Hin.
          -- split; [tauto|]. intros [?|[->|?]]; auto.
          -- rewrite elem_of_app, list_elem_of_singleton. tauto. }
  destruct (Hfold [("strategy", VStr strategy)]) as (H1 & H2 & H3).
  - apply NoDup_singleton.
  - done.
  - split_and!; [done..|]. intros key. rewrite H3. simpl.
    by rewrite list_elem_of_singleton.
Qed.

(** ** The single partition router *)

(** X20: [SinglePartitionRouter.stream_slices] never raises and yields
    exactly one slice; the slice has no key (indexing it raises [KeyError] for
    every key, [get] returns the default), its partition and cursor_slice are
    empty, and it equals the empty dict. *)
Theorem SinglePartitionRouter_stream_slices :
  ∃ s,
    SinglePartitionRouter.stream_slices = Ok [s]
    ∧ StreamSlice.partition 1 s = Some (MDict [])
    ∧ StreamSlice.cursor_slice 1 s = Some (MDict [])
    ∧ StreamSliceView.__len__ s = 0%nat
    ∧ (∀ key default_value,
         StreamSliceView.__getitem__ s key = RaiseKeyError key
         ∧ StreamSliceView.get s key default_value = default_value)
    ∧ StreamSlice.__eq__ s (OValue (VDict [])) = true
    ∧ (∀ extra_fields s',
         StreamSlice.__init__ (MDict []) (MDict []) extra_fields = Ok s' →
         StreamSlice.__eq__ s (OSlice s') = true).
Proof.
  eexists. split; [reflexivity|]. split_and!; try done.
  intros extra_fields s' [= <-]. done.
Qed.
